(** * Compliance framework mapper: policies against compliance standards

    A shallow embedding of [tools/Compliance-mapper.py]: the class
    [ComplianceMapper] with its methods [_load_standards],
    [map_policy_to_standards], [generate_compliance_report] and
    [check_compliance_gap]. The command line of [main], which reads and
    writes files, is left out.

    Python values are modelled as follows.
    - [str] is [string]; [str.split('-')] and ['-'.join] are [split_hyphen]
      and [String.concat "-"].
    - A [dict] keyed by strings is a [gmap string _] (the insertion order of
      its keys, which no property below reads, is not kept); a [set] of
      strings is a [gset string]; [list(s)] of a set [s] is [elements s]
      (each member once, in an order the language does not fix).
    - A policy is a dictionary read only through [.get] with a default, so
      each of its fields is an [option].
    - [raise] is the left summand of a sum.
    - A [float] is the rational number that the binary64 value is: the
      quotient of two lengths and its product by 100 are rounded to the
      nearest number of binary64, the even one of two equally near, as the
      division of two [int] and the product of two [float] are in Python. *)

From stdpp Require Import gmap strings list fin_maps sets.
From Stdlib Require Import Ascii QArith Qround Qpower Lqa.
From Stdlib Require Floats Uint63.

Local Close Scope Q_scope.
Local Close Scope Z_scope.

(** ** Strings *)

Definition hyphen : Ascii.ascii := "-"%char.

(** [s.split('-')]: never empty, one token more than there are hyphens. *)
Fixpoint split_hyphen (s : string) : list string :=
  match s with
  | EmptyString => [EmptyString]
  | String c rest =>
      if Ascii.eqb c hyphen then EmptyString :: split_hyphen rest
      else match split_hyphen rest with
           | [] => [String c EmptyString]
           | t :: ts => String c t :: ts
           end
  end.

(** ['-'.join(l)] *)
Definition join_hyphen (l : list string) : string := String.concat "-" l.

Fixpoint has_hyphen (s : string) : bool :=
  match s with
  | EmptyString => false
  | String c rest => Ascii.eqb c hyphen || has_hyphen rest
  end.

(** ** Data classes *)

Record ComplianceControl := {
  control_id_of : string;
  control_title : string;
  control_description : string;
  control_severity : string;
  control_checks : list (gmap string string)
}.

Record ComplianceStandard := {
  standard_id_of : string;
  standard_name : string;
  standard_version : string;
  standard_controls : list ComplianceControl
}.

(** The mapper object; [standards] is what [_load_standards] has read. *)
Record ComplianceMapper := {
  standards : gmap string ComplianceStandard
}.

(** [policy['metadata']], with the two keys the mapper reads. *)
Record Metadata := {
  name : option string;
  compliance : option (list string)
}.

Record Policy := {
  metadata : option Metadata
}.

(** [policy.get('metadata', {}).get('compliance', [])] *)
Definition compliance_refs (policy : Policy) : list string :=
  match metadata policy with
  | None => []
  | Some md => default [] (compliance md)
  end.

(** [policy.get('metadata', {}).get('name', 'unknown')] *)
Definition policy_name (policy : Policy) : string :=
  match metadata policy with
  | None => "unknown"
  | Some md => default "unknown" (name md)
  end.

(** ** map_policy_to_standards *)

(** The reference format [STANDARD-ID[-CONTROL-ID]]: the standard id of
    lines 81-82 and the control id of lines 89-90. *)
Definition parse_reference (ref : string) : string * option string :=
  let parts := split_hyphen ref in
  (if decide (2 ≤ length parts) then join_hyphen (take 2 parts) else ref,
   if decide (2 < length parts) then Some (join_hyphen (drop 2 parts)) else None).

(** The body of the loop over the references. The key is created as soon
    as the standard is known; the control id is appended afterwards, to an
    entry that is there by then ([alter] on a missing key, where Python
    would raise [KeyError], is never reached). *)
Definition map_reference (self : ComplianceMapper)
    (mapping : gmap string (list string)) (ref : string)
    : gmap string (list string) :=
  let parts := split_hyphen ref in
  let standard_id :=
    if decide (2 ≤ length parts) then join_hyphen (take 2 parts) else ref in
  match standards self !! standard_id with
  | None => mapping
  | Some _ =>
      let mapping :=
        match mapping !! standard_id with
        | None => <[standard_id := []]> mapping
        | Some _ => mapping
        end in
      if decide (2 < length parts) then
        let control_id := join_hyphen (drop 2 parts) in
        alter (λ l, l ++ [control_id]) standard_id mapping
      else mapping
  end.

Definition map_policy_to_standards (self : ComplianceMapper) (policy : Policy)
    : gmap string (list string) :=
  foldl (map_reference self) ∅ (compliance_refs policy).

(** ** generate_compliance_report *)

(** [report["details"][policy_name]] *)
Record PolicyDetail := {
  detail_policy_name : string;
  detail_standards : gmap string (list string)
}.

(** The report while the loop over the policies runs: the summary holds
    Python sets. *)
Record ReportState := {
  st_total_policies : nat;
  st_standards_covered : gset string;
  st_controls_covered : gmap string (gset string);
  st_details : gmap string PolicyDetail
}.

(** The report as returned, after the sets were turned into lists. *)
Record Summary := {
  total_policies : nat;
  standards_covered : list string;
  controls_covered : gmap string (list string)
}.

Record Report := {
  summary : Summary;
  details : gmap string PolicyDetail
}.

(** The body of [for standard_id, controls in mapping.items()]. *)
Definition update_summary (standard_id : string) (controls : list string)
    (st : ReportState) : ReportState :=
  let covered :=
    match st_controls_covered st !! standard_id with
    | None => <[standard_id := ∅]> (st_controls_covered st)
    | Some _ => st_controls_covered st
    end in
  {| st_total_policies := st_total_policies st;
     st_standards_covered := st_standards_covered st ∪ {[standard_id]};
     st_controls_covered :=
       alter (λ s, s ∪ list_to_set controls) standard_id covered;
     st_details := st_details st |}.

(** The body of [for policy in policies]. *)
Definition report_policy (self : ComplianceMapper) (st : ReportState)
    (policy : Policy) : ReportState :=
  let policy_name := policy_name policy in
  let mapping := map_policy_to_standards self policy in
  let st :=
    {| st_total_policies := st_total_policies st;
       st_standards_covered := st_standards_covered st;
       st_controls_covered := st_controls_covered st;
       st_details :=
         <[policy_name := {| detail_policy_name := policy_name;
                             detail_standards := mapping |}]> (st_details st) |} in
  map_fold update_summary st mapping.

Definition initial_report (policies : list Policy) : ReportState :=
  {| st_total_policies := length policies;
     st_standards_covered := ∅;
     st_controls_covered := ∅;
     st_details := ∅ |}.

(** Lines 125-129: sets become lists. *)
Definition sets_to_lists (st : ReportState) : Report :=
  {| summary :=
       {| total_policies := st_total_policies st;
          standards_covered := elements (st_standards_covered st);
          controls_covered := elements <$> st_controls_covered st |};
     details := st_details st |}.

Definition generate_compliance_report (self : ComplianceMapper)
    (policies : list Policy) : Report :=
  sets_to_lists (foldl (report_policy self) (initial_report policies) policies).

(** ** check_compliance_gap *)

Inductive exception :=
  | ValueError (msg : string)
  | ZeroDivisionError.

Record GapResult := {
  standard : string;
  required_controls : list string;
  implemented_controls : list string;
  missing_controls : list string;
  coverage_percentage : Q
}.

(** The loop of lines 145-148: the controls any policy maps to the
    required standard. *)
Definition find_implemented (self : ComplianceMapper)
    (required_standard : string) (policies : list Policy) : gset string :=
  foldl (λ implemented policy,
           let mapping := map_policy_to_standards self policy in
           match mapping !! required_standard with
           | Some controls => implemented ∪ list_to_set controls
           | None => implemented
           end) ∅ policies.

(** *** Binary64

    The numbers of binary64 are the multiples [m * 2^e] of a power of two
    with [|m| < 2^53] and [emin <= e]. Nothing below overflows: the
    numbers rounded are at most 100. *)

Definition emin : Z := (-1074)%Z.

(** [floor (log2 x)], for [0 < x]. *)
Definition Qlog2 (x : Q) : Z :=
  let e := (Z.log2 (Qnum x) - Z.log2 (Zpos (Qden x)))%Z in
  if Qle_bool (2 ^ e) x then e else (e - 1)%Z.

(** The nearest integer, the even one of two equally near. *)
Definition round_half_even (x : Q) : Z :=
  let f := Qfloor x in
  match (x - inject_Z f ?= 1 # 2)%Q with
  | Lt => f
  | Gt => (f + 1)%Z
  | Eq => if Z.even f then f else (f + 1)%Z
  end.

(** The distance of two neighbours of binary64 around [x], for [0 < x]:
    53 bits from the leading one of [x], and no less than [2^emin]. *)
Definition ulp (x : Q) : Q := (2 ^ Z.max (Qlog2 x - 52) emin)%Q.

Definition round64_pos (x : Q) : Q :=
  (inject_Z (round_half_even (x / ulp x)) * ulp x)%Q.

(** The number of binary64 nearest to [x]. *)
Definition round64 (x : Q) : Q :=
  match Qnum x with
  | Z0 => 0%Q
  | Zpos _ => round64_pos x
  | Zneg _ => (- round64_pos (- x))%Q
  end.

(** [len(a) / len(b) * 100] for a non-empty [b]: a division of two [int],
    then a product of two [float]. *)
Definition percentage (a b : nat) : Q :=
  round64 (round64 (inject_Z (Z.of_nat a) / inject_Z (Z.of_nat b)) * 100)%Q.

(** The greatest number of binary64 below 1, and the quotient of 1 by the
    greatest length whose quotients binary64 tells from 1. *)
Definition below_one : Q := 9007199254740991 # 9007199254740992.
Definition least_quotient : Q := 1 # 9007199254740992.

(** The same quotient and product with the floats of the kernel, on
    lengths below [2^53], and the rational number that a float is. *)
Definition float_percentage (a b : Z) : PrimFloat.float :=
  PrimFloat.mul
    (PrimFloat.div (PrimFloat.of_uint63 (Uint63.of_Z a))
                   (PrimFloat.of_uint63 (Uint63.of_Z b)))
    (PrimFloat.of_uint63 (Uint63.of_Z 100)).

Definition float_value (f : PrimFloat.float) : option Q :=
  match FloatOps.Prim2SF f with
  | SpecFloat.S754_zero _ => Some 0%Q
  | SpecFloat.S754_finite s m e =>
      Some ((if s then -1 else 1) * inject_Z (Z.pos m) * 2 ^ e)%Q
  | _ => None
  end.

Definition same_percentage (lengths : Z * Z) : bool :=
  match float_value (float_percentage lengths.1 lengths.2) with
  | Some q => Qeq_bool q (percentage (Z.to_nat lengths.1) (Z.to_nat lengths.2))
  | None => false
  end.

Definition check_compliance_gap (self : ComplianceMapper)
    (required_standard : string) (required_controls : list string)
    (policies : list Policy) : exception + GapResult :=
  match standards self !! required_standard with
  | None =>
      inl (ValueError ("Standard " +:+ required_standard +:+ " not found"))
  | Some _ =>
      let implemented_controls :=
        find_implemented self required_standard policies in
      let required_set : gset string := list_to_set required_controls in
      let missing_controls := required_set ∖ implemented_controls in
      let implemented_controls := implemented_controls ∩ required_set in
      if decide (length required_controls = 0) then inl ZeroDivisionError
      else
        inr {| standard := required_standard;
               required_controls := required_controls;
               implemented_controls := elements implemented_controls;
               missing_controls := elements missing_controls;
               coverage_percentage :=
                 percentage (size implemented_controls)
                            (length required_controls) |}
  end.

(** ** The example of the documentation: SOC-2 with two controls *)

Definition control (id : string) : ComplianceControl :=
  {| control_id_of := id; control_title := id; control_description := "";
     control_severity := "medium"; control_checks := [] |}.

Definition soc2 : ComplianceStandard :=
  {| standard_id_of := "SOC-2"; standard_name := "SOC 2";
     standard_version := "2017";
     standard_controls := [control "CC6.1"; control "CC6.2"] |}.

Definition catalog : ComplianceMapper :=
  {| standards := {[ "SOC-2" := soc2 ]} |}.

Definition policy_with (n : string) (refs : list string) : Policy :=
  {| metadata := Some {| name := Some n; compliance := Some refs |} |}.

Definition policy_A : Policy := policy_with "A" ["SOC-2-CC6.1"].
Definition policy_B : Policy := policy_with "B" ["SOC-2"].
Definition policy_twice : Policy :=
  policy_with "twice" ["SOC-2-CC6.1"; "SOC-2-CC6.1"].

(** ** The references of a policy, by standard

    What the mapper is compared with: the control ids that the references
    to [s] carry, one per reference and in their order. *)

Definition controls_for (s : string) (refs : list string) : list string :=
  omap (λ ref, if decide ((parse_reference ref).1 = s)
               then (parse_reference ref).2 else None) refs.

(** [s.count('-')] *)
Fixpoint count_hyphens (s : string) : nat :=
  match s with
  | EmptyString => 0
  | String c rest => (if Ascii.eqb c hyphen then 1 else 0) + count_hyphens rest
  end.

(** ** _load_standards

    The loader reads every [*.yaml] file of the standards directory with
    [yaml.safe_load]. What is modelled is what it does with the documents
    read, in the order in which [glob] yields the files: a document is a
    dictionary, a key read with [d[k]] raises [KeyError] when it is
    missing, a key read with [d.get(k, v)] has a default, and a key that
    is there holds a value of the shape the data classes declare. *)

Inductive load_exception :=
  | KeyError (key : string).

(** An entry of [data['controls']]. *)
Record ControlData := {
  data_id : option string;
  data_title : option string;
  data_description : option string;
  data_severity : option string;
  data_checks : option (list (gmap string string))
}.

(** [data['standard']] *)
Record StandardInfo := {
  info_id : option string;
  info_name : option string;
  info_version : option string
}.

(** A document as [yaml.safe_load] returns it. *)
Record StandardData := {
  data_standard : option StandardInfo;
  data_controls : option (list ControlData)
}.

(** [d[key]] *)
Definition subscript {A} (key : string) (value : option A)
    : load_exception + A :=
  match value with
  | Some x => inr x
  | None => inl (KeyError key)
  end.

Definition bind_load {A B} (m : load_exception + A)
    (f : A → load_exception + B) : load_exception + B :=
  match m with
  | inl e => inl e
  | inr x => f x
  end.

Notation "x ←! m ; f" := (bind_load m (λ x, f))
  (at level 100, m at next level, right associativity, only parsing).

(** The call of [ComplianceControl(...)], its arguments evaluated in
    order. *)
Definition load_control (control_data : ControlData)
    : load_exception + ComplianceControl :=
  id ←! subscript "id" (data_id control_data);
  title ←! subscript "title" (data_title control_data);
  description ←! subscript "description" (data_description control_data);
  inr {| control_id_of := id;
         control_title := title;
         control_description := description;
         control_severity := default "medium" (data_severity control_data);
         control_checks := default [] (data_checks control_data) |}.

(** The loop that appends to [controls]. *)
Fixpoint load_controls (controls_data : list ControlData)
    : load_exception + list ComplianceControl :=
  match controls_data with
  | [] => inr []
  | control_data :: rest =>
      control ←! load_control control_data;
      controls ←! load_controls rest;
      inr (control :: controls)
  end.

(** The body of the loop over the files, up to the standard built. *)
Definition load_standard (data : StandardData)
    : load_exception + ComplianceStandard :=
  standard_info ←! subscript "standard" (data_standard data);
  controls ←! load_controls (default [] (data_controls data));
  id ←! subscript "id" (info_id standard_info);
  name ←! subscript "name" (info_name standard_info);
  version ←! subscript "version" (info_version standard_info);
  inr {| standard_id_of := id;
         standard_name := name;
         standard_version := version;
         standard_controls := controls |}.

(** The loop over the files, from the dictionary built so far. *)
Fixpoint load_standards_from (standards : gmap string ComplianceStandard)
    (documents : list StandardData)
    : load_exception + gmap string ComplianceStandard :=
  match documents with
  | [] => inr standards
  | data :: rest =>
      standard ←! load_standard data;
      load_standards_from (<[standard_id_of standard := standard]> standards) rest
  end.

Definition _load_standards (documents : list StandardData)
    : load_exception + gmap string ComplianceStandard :=
  load_standards_from ∅ documents.

(** The standards that a list of documents defines, when all load. *)
Fixpoint loaded_standards (documents : list StandardData)
    : option (list ComplianceStandard) :=
  match documents with
  | [] => Some []
  | data :: rest =>
      match load_standard data, loaded_standards rest with
      | inr standard, Some standards => Some (standard :: standards)
      | _, _ => None
      end
  end.

Definition control_data (id : string) : ControlData :=
  {| data_id := Some id; data_title := Some id; data_description := Some "";
     data_severity := None; data_checks := None |}.

Definition soc2_data (version : string) (controls : list string) : StandardData :=
  {| data_standard :=
       Some {| info_id := Some "SOC-2"; info_name := Some "SOC 2";
               info_version := Some version |};
     data_controls := Some (control_data <$> controls) |}.

(** A catalog whose standard ids have no, one and two hyphens. *)
Definition standard_named (id : string) (controls : list string)
    : ComplianceStandard :=
  {| standard_id_of := id; standard_name := id; standard_version := "1";
     standard_controls := control <$> controls |}.

Definition catalog_wide : ComplianceMapper :=
  {| standards :=
       <["GDPR" := standard_named "GDPR" ["Art5"]]>
         (<["ISO-27001-2013" := standard_named "ISO-27001-2013" ["A.5"]]>
            {[ "SOC-2" := soc2 ]}) |}.

Definition policy_wide : Policy :=
  policy_with "wide"
    ["GDPR"; "GDPR-Art5"; "ISO-27001-2013-A.5"; "SOC-2-CC6.2"].

(** SOC-2 again, with no control at all. *)
Definition catalog_bare : ComplianceMapper :=
  {| standards := {[ "SOC-2" := standard_named "SOC-2" [] ]} |}.

(** The entry that the report files under the name of a policy. *)
Definition detail_of (self : ComplianceMapper) (policy : Policy) : PolicyDetail :=
  {| detail_policy_name := policy_name policy;
     detail_standards := map_policy_to_standards self policy |}.

Definition policy_unnamed : Policy :=
  {| metadata := Some {| name := None; compliance := Some ["SOC-2-CC6.2"] |} |}.

Definition policy_bare : Policy := {| metadata := None |}.

(** Two documents for SOC-2, and one whose first control has no id. *)
Definition soc2_documents : list StandardData :=
  [soc2_data "2017" ["CC6.1"]; soc2_data "2022" ["CC6.1"; "CC6.2"]].

Definition broken_data : StandardData :=
  {| data_standard :=
       Some {| info_id := Some "SOC-3"; info_name := None; info_version := None |};
     data_controls :=
       Some [ {| data_id := None; data_title := Some "t";
                 data_description := None; data_severity := None;
                 data_checks := None |} ] |}.

(** * Properties *)

(** ** Splitting and joining *)

Section strings.

Lemma split_hyphen_cons (s : string) :
  ∃ t ts, split_hyphen s = t :: ts.
Proof.
  induction s as [|c rest IH]; simpl; [by eauto|].
  destruct (Ascii.eqb c hyphen); [by eauto|].
  destruct IH as (t & ts & ->). by eauto.
Qed.

Lemma split_hyphen_length (s : string) : 1 ≤ length (split_hyphen s).
Proof. destruct (split_hyphen_cons s) as (t & ts & ->). simpl. lia. Qed.

Lemma join_hyphen_cons (t : string) (ts : list string) :
  join_hyphen (t :: ts) =
    match ts with [] => t | _ :: _ => t +:+ "-" +:+ join_hyphen ts end.
Proof. by destruct ts. Qed.

Lemma join_split_hyphen (s : string) : join_hyphen (split_hyphen s) = s.
Proof.
  induction s as [|c rest IH]; [done|]. simpl.
  destruct (Ascii.eqb_spec c hyphen) as [->|_].
  - destruct (split_hyphen_cons rest) as (t & ts & Hs).
    rewrite Hs in IH |- *. rewrite join_hyphen_cons. simpl. by rewrite IH.
  - destruct (split_hyphen_cons rest) as (t & ts & Hs).
    rewrite Hs in IH |- *. rewrite <- IH. by destruct ts.
Qed.

Lemma split_hyphen_tokens (s : string) :
  Forall (λ t, has_hyphen t = false) (split_hyphen s).
Proof.
  induction s as [|c rest IH]; simpl; [by repeat constructor|].
  destruct (Ascii.eqb c hyphen) eqn:Hc; [by constructor|].
  destruct (split_hyphen rest) as [|t ts]; [by repeat constructor; simpl; rewrite Hc|].
  inversion_clear IH. constructor; [|done]. simpl. by rewrite Hc.
Qed.

Lemma split_hyphen_single (s : string) :
  length (split_hyphen s) < 2 ↔ has_hyphen s = false.
Proof.
  induction s as [|c rest IH]; simpl; [split; [done|lia]|].
  destruct (Ascii.eqb c hyphen); simpl.
  - pose proof (split_hyphen_length rest). split; [lia|done].
  - destruct (split_hyphen rest) as [|t ts]; simpl in *; [|done].
    destruct IH as [IH _]. split; [intros _; apply IH|]; lia.
Qed.

End strings.

(** C5. Parsing a reference is a total function of the string. With the
    tokens that splitting on the hyphen yields (which join back to the
    reference and hold no hyphen): two tokens or more give the first two
    joined by a hyphen as standard id; fewer than two give the reference
    itself and no control id; more than two give the remaining tokens
    joined by a hyphen as control id, and two or fewer give none. *)
Theorem parse_reference_tokens (ref : string) :
  join_hyphen (split_hyphen ref) = ref ∧
  Forall (λ t, has_hyphen t = false) (split_hyphen ref) ∧
  (∀ t0 t1 rest, split_hyphen ref = t0 :: t1 :: rest →
     (parse_reference ref).1 = t0 +:+ "-" +:+ t1) ∧
  (length (split_hyphen ref) < 2 → parse_reference ref = (ref, None)) ∧
  (2 < length (split_hyphen ref) →
     (parse_reference ref).2 = Some (join_hyphen (drop 2 (split_hyphen ref)))) ∧
  (length (split_hyphen ref) ≤ 2 → (parse_reference ref).2 = None).
Proof.
  split; [apply join_split_hyphen|]. split; [apply split_hyphen_tokens|].
  unfold parse_reference. repeat split.
  - intros t0 t1 rest ->. simpl. by rewrite take_0.
  - intros Hlen. by repeat case_decide; try lia.
  - intros Hlen. simpl. by case_decide.
  - intros Hlen. simpl. by case_decide; [lia|].
Qed.

(** ** The mapping of one policy *)

Section mapping.

Context (self : ComplianceMapper).

(** The loop body, read through [parse_reference]. *)
Lemma map_reference_parse (mapping : gmap string (list string)) (ref : string) :
  map_reference self mapping ref =
    match standards self !! (parse_reference ref).1 with
    | None => mapping
    | Some _ =>
        let created :=
          match mapping !! (parse_reference ref).1 with
          | None => <[(parse_reference ref).1 := []]> mapping
          | Some _ => mapping
          end in
        match (parse_reference ref).2 with
        | Some control_id =>
            alter (λ l, l ++ [control_id]) (parse_reference ref).1 created
        | None => created
        end
    end.
Proof.
  unfold map_reference, parse_reference; simpl.
  destruct (standards self !! _); [|done]. by case_decide.
Qed.

Lemma map_reference_lookup (mapping : gmap string (list string)) (ref s : string) :
  map_reference self mapping ref !! s =
    if decide ((parse_reference ref).1 = s ∧ is_Some (standards self !! s))
    then Some (default [] (mapping !! s) ++ option_list (parse_reference ref).2)
    else mapping !! s.
Proof.
  rewrite map_reference_parse.
  destruct (parse_reference ref) as [sid cid]; simpl.
  destruct (decide (sid = s)) as [->|Hne].
  - destruct (standards self !! s) as [std|] eqn:Hstd.
    + rewrite decide_True by eauto.
      destruct (mapping !! s) as [l|] eqn:Hl, cid as [c|]; simpl;
        rewrite ?lookup_alter_eq, ?lookup_insert_eq, ?Hl, ?app_nil_r; done.
    + rewrite decide_False; [done|]. intros [_ []]. done.
  - rewrite decide_False by (by intros [? _]).
    destruct (standards self !! sid); [|done].
    destruct (mapping !! sid), cid; simpl;
      rewrite ?lookup_alter_ne, ?lookup_insert_ne; done.
Qed.

Lemma controls_for_cons (s ref : string) (refs : list string) :
  controls_for s (ref :: refs) =
    (if decide ((parse_reference ref).1 = s)
     then option_list (parse_reference ref).2 else []) ++ controls_for s refs.
Proof.
  unfold controls_for; cbn -[parse_reference]. case_decide; [|done].
  by destruct (parse_reference ref).2.
Qed.

Lemma controls_for_unreferenced (s : string) (refs : list string) :
  ¬ Exists (λ ref, (parse_reference ref).1 = s) refs → controls_for s refs = [].
Proof.
  induction refs as [|ref refs IH]; intros Hex; [done|].
  rewrite controls_for_cons, IH.
  - rewrite decide_False; [done|]. intros Heq. apply Hex. by left.
  - intros Hrefs. apply Hex. by right.
Qed.

Lemma foldl_map_reference_lookup (refs : list string)
    (mapping : gmap string (list string)) (s : string) :
  foldl (map_reference self) mapping refs !! s =
    if decide (is_Some (standards self !! s) ∧
               Exists (λ ref, (parse_reference ref).1 = s) refs)
    then Some (default [] (mapping !! s) ++ controls_for s refs)
    else mapping !! s.
Proof.
  revert mapping. induction refs as [|ref refs IH]; intros mapping; cbn [foldl].
  - rewrite decide_False; [done|]. intros [_ H]. by apply Exists_nil in H.
  - rewrite IH, map_reference_lookup, controls_for_cons. clear IH.
    destruct (decide (is_Some (standards self !! s))) as [Hs|Hs].
    + destruct (decide ((parse_reference ref).1 = s)) as [Hr|Hr].
      * rewrite (decide_True (P := _ ∧ is_Some _)) by done.
        rewrite (decide_True (P := _ ∧ Exists _ (_ :: _)))
          by (split; [done|by left]).
        cbn -[parse_reference controls_for].
        destruct (decide (_ ∧ Exists _ refs)) as [Hex|Hex].
        -- by rewrite <- (assoc_L (++)).
        -- rewrite controls_for_unreferenced, app_nil_r; [done|].
           intros Hrefs. by apply Hex.
      * rewrite (decide_False (P := _ ∧ is_Some _)) by (by intros [? _]).
        cbn -[parse_reference controls_for].
        destruct (decide (_ ∧ Exists _ refs)) as [Hex|Hex].
        -- rewrite decide_True; [done|]. split; [done|]. right. apply Hex.
        -- rewrite decide_False; [done|]. intros [_ Hrefs]. apply Hex.
           split; [done|]. by inversion Hrefs.
    + rewrite !(decide_False (P := is_Some _ ∧ _)) by (by intros [? _]).
      rewrite decide_False by (by intros [_ ?]). done.
Qed.

(** What the mapper returns for a standard id: nothing for an unknown or
    unreferenced one, else the control ids of its references. *)
Lemma map_policy_lookup (policy : Policy) (s : string) :
  map_policy_to_standards self policy !! s =
    if decide (is_Some (standards self !! s) ∧
               Exists (λ ref, (parse_reference ref).1 = s) (compliance_refs policy))
    then Some (controls_for s (compliance_refs policy))
    else None.
Proof.
  unfold map_policy_to_standards. rewrite foldl_map_reference_lookup.
  by rewrite lookup_empty.
Qed.

Lemma controls_for_elem (s c : string) (refs : list string) :
  c ∈ controls_for s refs ↔
  ∃ ref, ref ∈ refs ∧ parse_reference ref = (s, Some c).
Proof.
  unfold controls_for. rewrite list_elem_of_omap. split.
  - intros (ref & Hin & Hp). exists ref. split; [done|].
    case_decide; [|done]. destruct (parse_reference ref); simpl in *.
    by subst.
  - intros (ref & Hin & Hp). exists ref. split; [done|].
    rewrite Hp; simpl. by rewrite decide_True.
Qed.

Lemma controls_for_count (s c : string) (refs : list string) :
  length (filter (λ x, x = c) (controls_for s refs)) =
  length (filter (λ ref, parse_reference ref = (s, Some c)) refs).
Proof.
  induction refs as [|ref refs IH]; [done|].
  rewrite controls_for_cons, filter_app, length_app, IH, filter_cons.
  destruct (parse_reference ref) as [sid [cid|]]; cbn [fst snd option_list];
    repeat case_decide; simplify_eq; cbn; try done.
  all: rewrite ?decide_True, ?decide_False by congruence; done.
Qed.

End mapping.

(** C1 (as the code has it). A standard id is a key of the mapping of a
    policy exactly when it is a key of the catalog and some reference of
    the policy parses to it, with or without a control id; when no
    reference to it carries a control id, its entry is the empty list. *)
Theorem known_reference_makes_entry (self : ComplianceMapper)
    (policy : Policy) (s : string) :
  (is_Some (map_policy_to_standards self policy !! s) ↔
     is_Some (standards self !! s) ∧
     ∃ ref, ref ∈ compliance_refs policy ∧ (parse_reference ref).1 = s) ∧
  ((∀ ref, ref ∈ compliance_refs policy →
           (parse_reference ref).1 = s → (parse_reference ref).2 = None) →
   is_Some (map_policy_to_standards self policy !! s) →
   map_policy_to_standards self policy !! s = Some []).
Proof.
  rewrite map_policy_lookup. split.
  - rewrite <- Exists_exists. case_decide as Hd; [by split; eauto|].
    split; [by intros [? ?]|]. intros Hk. by destruct Hd.
  - intros Hbare. case_decide as Hd; [|by intros [? ?]]. intros _. f_equal.
    destruct (controls_for s (compliance_refs policy)) as [|c l] eqn:Hl; [done|].
    assert (c ∈ controls_for s (compliance_refs policy)) as Hc
      by (rewrite Hl; left).
    apply controls_for_elem in Hc as (ref & Hin & Hp).
    specialize (Hbare ref Hin). rewrite Hp in Hbare. by specialize (Hbare eq_refl).
Qed.

(** C1, refuted as stated: policy B refers to the known standard SOC-2
    without a control id, and its mapping has the key SOC-2. *)
Lemma bare_reference_is_mapped :
  compliance_refs policy_B = ["SOC-2"] ∧
  parse_reference "SOC-2" = ("SOC-2", None) ∧
  is_Some (standards catalog !! "SOC-2") ∧
  map_policy_to_standards catalog policy_B !! "SOC-2" = Some [] ∧
  map_policy_to_standards catalog policy_B ≠ ∅.
Proof.
  split; [done|]. split; [done|]. split; [by eexists|].
  split; [by vm_compute|]. intros Hempty.
  apply (f_equal (λ m, m !! "SOC-2")) in Hempty. by vm_compute in Hempty.
Qed.

(** C2 (as the code has it). The entry of a standard is a list with one
    element per reference that carries a control id, in the order of the
    references: a control id occurs in it as often as the policy holds a
    reference to this standard with this control id. *)
Theorem mapping_keeps_every_reference (self : ComplianceMapper)
    (policy : Policy) (s : string) (controls : list string) :
  map_policy_to_standards self policy !! s = Some controls →
  controls = controls_for s (compliance_refs policy) ∧
  ∀ c, length (filter (λ x, x = c) controls) =
       length (filter (λ ref, parse_reference ref = (s, Some c))
                      (compliance_refs policy)).
Proof.
  rewrite map_policy_lookup. case_decide; [|done]. intros [= <-].
  split; [done|]. intros c. apply controls_for_count.
Qed.

Lemma mapping_keeps_every_reference_twice :
  map_policy_to_standards catalog policy_twice !! "SOC-2"
    = Some ["CC6.1"; "CC6.1"] ∧
  ["CC6.1"; "CC6.1"] = controls_for "SOC-2" (compliance_refs policy_twice) ∧
  ∀ c, length (filter (λ x, x = c) ["CC6.1"; "CC6.1"]) =
       length (filter (λ ref, parse_reference ref = ("SOC-2", Some c))
                      (compliance_refs policy_twice)).
Proof.
  split; [by vm_compute|].
  apply (mapping_keeps_every_reference catalog policy_twice "SOC-2").
  by vm_compute.
Defined.

(** C2, refuted as stated: the same reference twice gives the control id
    twice in the entry of its standard. *)
Lemma repeated_reference_is_kept :
  compliance_refs policy_twice = ["SOC-2-CC6.1"; "SOC-2-CC6.1"] ∧
  map_policy_to_standards catalog policy_twice !! "SOC-2"
    = Some ["CC6.1"; "CC6.1"] ∧
  length (filter (λ x, x = "CC6.1")
            (default [] (map_policy_to_standards catalog policy_twice !! "SOC-2")))
    = 2.
Proof. split; [done|]. split; by vm_compute. Qed.

(** ** The report over a batch of policies *)

Section report.

Context (self : ComplianceMapper).

(** One pass of the inner loop over the items of a mapping. *)
Lemma map_fold_update_summary (st : ReportState)
    (mapping : gmap string (list string)) :
  st_total_policies (map_fold update_summary st mapping) = st_total_policies st ∧
  st_details (map_fold update_summary st mapping) = st_details st ∧
  st_standards_covered (map_fold update_summary st mapping)
    = st_standards_covered st ∪ dom mapping ∧
  ∀ s, st_controls_covered (map_fold update_summary st mapping) !! s =
         match mapping !! s with
         | None => st_controls_covered st !! s
         | Some controls =>
             Some (default ∅ (st_controls_covered st !! s) ∪ list_to_set controls)
         end.
Proof.
  apply (map_fold_weak_ind (λ r m,
    st_total_policies r = st_total_policies st ∧
    st_details r = st_details st ∧
    st_standards_covered r = st_standards_covered st ∪ dom m ∧
    ∀ s, st_controls_covered r !! s =
           match m !! s with
           | None => st_controls_covered st !! s
           | Some controls =>
               Some (default ∅ (st_controls_covered st !! s) ∪ list_to_set controls)
           end)).
  - rewrite dom_empty_L, (right_id_L ∅ (∪)). by repeat split.
  - intros i x m r Hi (Htot & Hdet & Hstd & Hctl). cbn.
    split; [done|]. split; [done|]. split.
    + rewrite Hstd, dom_insert_L.
      by rewrite <- (assoc_L (∪)), (comm_L (∪) (dom m)).
    + intros s. destruct (decide (i = s)) as [<-|Hne].
      * rewrite lookup_alter_eq, (lookup_insert_eq m).
        specialize (Hctl i). rewrite Hi in Hctl. rewrite <- Hctl.
        destruct (st_controls_covered r !! i) as [old|] eqn:Hold; cbn.
        -- by rewrite Hold.
        -- by rewrite lookup_insert_eq.
      * rewrite lookup_alter_ne, lookup_insert_ne by done. rewrite <- Hctl.
        destruct (st_controls_covered r !! i); [done|].
        by rewrite lookup_insert_ne.
Qed.

Lemma report_policy_standards (st : ReportState) (policy : Policy) :
  st_standards_covered (report_policy self st policy)
    = st_standards_covered st ∪ dom (map_policy_to_standards self policy).
Proof.
  unfold report_policy.
  by destruct (map_fold_update_summary
    {| st_total_policies := st_total_policies st;
       st_standards_covered := st_standards_covered st;
       st_controls_covered := st_controls_covered st;
       st_details :=
         <[policy_name policy :=
             {| detail_policy_name := policy_name policy;
                detail_standards := map_policy_to_standards self policy |}]>
           (st_details st) |}
    (map_policy_to_standards self policy)) as (_ & _ & -> & _).
Qed.

Lemma report_policy_controls (st : ReportState) (policy : Policy) (s : string) :
  st_controls_covered (report_policy self st policy) !! s =
    match map_policy_to_standards self policy !! s with
    | None => st_controls_covered st !! s
    | Some controls =>
        Some (default ∅ (st_controls_covered st !! s) ∪ list_to_set controls)
    end.
Proof.
  unfold report_policy.
  by destruct (map_fold_update_summary
    {| st_total_policies := st_total_policies st;
       st_standards_covered := st_standards_covered st;
       st_controls_covered := st_controls_covered st;
       st_details :=
         <[policy_name policy :=
             {| detail_policy_name := policy_name policy;
                detail_standards := map_policy_to_standards self policy |}]>
           (st_details st) |}
    (map_policy_to_standards self policy)) as (_ & _ & _ & ->).
Qed.

Lemma foldl_report_policy_standards (policies : list Policy) (st : ReportState) :
  st_standards_covered (foldl (report_policy self) st policies)
    = st_standards_covered st ∪
      ⋃ ((λ p, dom (map_policy_to_standards self p)) <$> policies).
Proof.
  revert st. induction policies as [|p ps IH]; intros st; cbn.
  - by rewrite (right_id_L ∅ (∪)).
  - rewrite IH, report_policy_standards. by rewrite (assoc_L (∪)).
Qed.

Lemma foldl_report_policy_key (policies : list Policy) (st : ReportState)
    (s : string) :
  is_Some (st_controls_covered (foldl (report_policy self) st policies) !! s) ↔
  is_Some (st_controls_covered st !! s) ∨
  ∃ p, p ∈ policies ∧ is_Some (map_policy_to_standards self p !! s).
Proof.
  revert st. induction policies as [|p ps IH]; intros st; cbn.
  - split; [by left|]. intros [?|(p & Hp & _)]; [done|]. by inversion Hp.
  - rewrite IH, report_policy_controls. split.
    + intros [Hst|(q & Hq & Hs)].
      * destruct (map_policy_to_standards self p !! s) eqn:Hp; [|by left].
        right. exists p. split; [by left|]. by rewrite Hp.
      * right. exists q. split; [by right|done].
    + intros [Hst|(q & Hq & Hs)].
      * left. by destruct (map_policy_to_standards self p !! s).
      * apply elem_of_cons in Hq as [->|Hq].
        -- left. by destruct Hs as [l ->].
        -- right. by exists q.
Qed.

Lemma foldl_report_policy_control (policies : list Policy) (st : ReportState)
    (s c : string) :
  c ∈ default ∅ (st_controls_covered (foldl (report_policy self) st policies) !! s) ↔
  c ∈ default ∅ (st_controls_covered st !! s) ∨
  ∃ p, p ∈ policies ∧ c ∈ default [] (map_policy_to_standards self p !! s).
Proof.
  revert st. induction policies as [|p ps IH]; intros st; cbn.
  - split; [by left|]. intros [?|(p & Hp & _)]; [done|]. by inversion Hp.
  - rewrite IH, report_policy_controls. split.
    + intros [Hst|(q & Hq & Hs)].
      * destruct (map_policy_to_standards self p !! s) as [l|] eqn:Hp;
          [|by left]. cbn in Hst.
        apply elem_of_union in Hst as [Hst|Hst]; [by left|].
        right. exists p. split; [by left|]. rewrite Hp. cbn.
        by apply elem_of_list_to_set in Hst.
      * right. exists q. split; [by right|done].
    + intros [Hst|(q & Hq & Hs)].
      * left. destruct (map_policy_to_standards self p !! s); [|done].
        cbn. by apply elem_of_union_l.
      * apply elem_of_cons in Hq as [->|Hq].
        -- left. destruct (map_policy_to_standards self p !! s) as [l|];
             [|by inversion Hs].
           cbn in *. apply elem_of_union_r. by apply elem_of_list_to_set.
        -- right. by exists q.
Qed.

(** The summary of the returned report, by membership. *)
Lemma report_controls_covered (policies : list Policy) (s c : string) :
  c ∈ default [] (controls_covered
                    (summary (generate_compliance_report self policies)) !! s) ↔
  ∃ p, p ∈ policies ∧ c ∈ default [] (map_policy_to_standards self p !! s).
Proof.
  unfold generate_compliance_report; cbn. rewrite lookup_fmap.
  pose proof (foldl_report_policy_control policies (initial_report policies) s c)
    as Hc. cbn in Hc. rewrite lookup_empty in Hc. cbn in Hc.
  destruct (st_controls_covered _ !! s) as [X|]; cbn in *.
  - rewrite elem_of_elements, Hc. split; [|by right].
    intros [Hemp|?]; [by apply elem_of_empty in Hemp|done].
  - split; [by intros ?%elem_of_nil|]. intros Hp. exfalso.
    apply (not_elem_of_empty (C := gset string) c). apply Hc. by right.
Qed.

Lemma report_controls_covered_key (policies : list Policy) (s : string) :
  is_Some (controls_covered
             (summary (generate_compliance_report self policies)) !! s) ↔
  ∃ p, p ∈ policies ∧ is_Some (map_policy_to_standards self p !! s).
Proof.
  unfold generate_compliance_report; cbn.
  rewrite lookup_fmap, fmap_is_Some, foldl_report_policy_key. cbn.
  rewrite lookup_empty. split; [|by right]. by intros [[? ?]|?].
Qed.

End report.

(** C8. In the report over the two policies P1 and P2, the controls
    covered for a standard id are, as a set, the union of the control ids
    that the mappings of P1 and of P2 hold for it, a missing key counting
    as the empty set; the key is there exactly when one of the two
    mappings has it, and its list holds no control id twice. *)
Theorem controls_covered_union (self : ComplianceMapper) (P1 P2 : Policy)
    (s : string) :
  list_to_set
    (default [] (controls_covered
                   (summary (generate_compliance_report self [P1; P2])) !! s))
    =@{gset string}
    list_to_set (default [] (map_policy_to_standards self P1 !! s)) ∪
    list_to_set (default [] (map_policy_to_standards self P2 !! s)) ∧
  NoDup (default [] (controls_covered
                       (summary (generate_compliance_report self [P1; P2])) !! s)) ∧
  (is_Some (controls_covered
              (summary (generate_compliance_report self [P1; P2])) !! s) ↔
   is_Some (map_policy_to_standards self P1 !! s) ∨
   is_Some (map_policy_to_standards self P2 !! s)).
Proof.
  split; [|split].
  - apply set_eq. intros c.
    rewrite elem_of_union, !elem_of_list_to_set, report_controls_covered.
    split.
    + intros (p & Hp & Hc).
      apply elem_of_cons in Hp as [->|Hp]; [by left|].
      apply elem_of_cons in Hp as [->|Hp]; [by right|]. by inversion Hp.
    + intros [Hc|Hc]; [exists P1|exists P2]; (split; [|done]).
      * by left.
      * right. by left.
  - unfold generate_compliance_report; cbn. rewrite lookup_fmap.
    destruct (st_controls_covered _ !! s); cbn;
      [apply NoDup_elements|apply NoDup_nil_2].
  - rewrite report_controls_covered_key. split.
    + intros (p & Hp & Hs).
      apply elem_of_cons in Hp as [->|Hp]; [by left|].
      apply elem_of_cons in Hp as [->|Hp]; [by right|]. by inversion Hp.
    + intros [Hs|Hs]; [exists P1|exists P2]; (split; [|done]).
      * by left.
      * right. by left.
Qed.

(** C9. The standards covered by the report are, as a set, the union over
    the policies of the keys of their mappings, each listed once; a known
    standard id that a policy refers to without a control id is among
    them. *)
Theorem standards_covered_union (self : ComplianceMapper)
    (policies : list Policy) :
  list_to_set (standards_covered
                 (summary (generate_compliance_report self policies)))
    =@{gset string}
    ⋃ ((λ p, dom (map_policy_to_standards self p)) <$> policies) ∧
  NoDup (standards_covered (summary (generate_compliance_report self policies))) ∧
  ∀ p ref s,
    p ∈ policies → ref ∈ compliance_refs p →
    parse_reference ref = (s, None) → is_Some (standards self !! s) →
    s ∈ standards_covered (summary (generate_compliance_report self policies)).
Proof.
  unfold generate_compliance_report; cbn.
  rewrite foldl_report_policy_standards; cbn. rewrite (left_id_L ∅ (∪)).
  split; [apply list_to_set_elements_L|]. split; [apply NoDup_elements|].
  intros p ref s Hp Href Hparse Hknown.
  apply elem_of_elements, elem_of_union_list.
  exists (dom (map_policy_to_standards self p)). split.
  - apply list_elem_of_fmap. by exists p.
  - apply elem_of_dom. rewrite map_policy_lookup, decide_True; [done|].
    split; [done|]. apply Exists_exists. exists ref. by rewrite Hparse.
Qed.

(** The example of the documentation: policy B alone puts SOC-2 among the
    standards covered, with no control. *)
Example report_of_A_and_B :
  standards_covered (summary (generate_compliance_report catalog [policy_A; policy_B]))
    = ["SOC-2"] ∧
  controls_covered (summary (generate_compliance_report catalog [policy_A; policy_B]))
    = {[ "SOC-2" := ["CC6.1"] ]} ∧
  standards_covered (summary (generate_compliance_report catalog [policy_B]))
    = ["SOC-2"] ∧
  controls_covered (summary (generate_compliance_report catalog [policy_B]))
    = {[ "SOC-2" := [] ]}.
Proof. repeat split; by vm_compute. Qed.

(** ** Rounding to binary64 *)

Section binary64.

Local Open Scope Q_scope.

Lemma pow2_pos (k : Z) : 0 < 2 ^ k.
Proof. by apply Qpower_0_lt. Qed.

Lemma pow2_le (a b : Z) : (a <= b)%Z -> 2 ^ a <= 2 ^ b.
Proof. intros Hab. by apply Qpower_le_compat_l. Qed.

Lemma pow2_lt (a b : Z) : (a < b)%Z -> 2 ^ a < 2 ^ b.
Proof. intros Hab. by apply Qpower_lt_compat_l. Qed.

Lemma pow2_lt_inv (a b : Z) : 2 ^ a < 2 ^ b -> (a < b)%Z.
Proof. intros Hab. by apply (Qpower_lt_compat_l_inv 2). Qed.

Lemma pow2_plus (a b : Z) : 2 ^ (a + b) == 2 ^ a * 2 ^ b.
Proof. by apply Qpower_plus. Qed.

Lemma pow2_Z (n : Z) : (0 <= n)%Z -> inject_Z (2 ^ n) == 2 ^ n.
Proof. intros Hn. by rewrite Zpower_Qpower. Qed.

(** A power of two is a multiple of every smaller one. *)
Lemma pow2_multiple (e k : Z) :
  (k <= e)%Z -> 2 ^ e == inject_Z (2 ^ (e - k)) * 2 ^ k.
Proof.
  intros Hk. rewrite pow2_Z by lia. rewrite <- pow2_plus.
  by replace (e - k + k)%Z with e by lia.
Qed.

Lemma Qlog2_spec (x : Q) :
  0 < x -> 2 ^ Qlog2 x <= x /\ x < 2 ^ (Qlog2 x + 1).
Proof.
  intros Hx. destruct x as [n d].
  assert (0 < n)%Z as Hn.
  { unfold Qlt in Hx. cbn in Hx. lia. }
  destruct (Z.log2_spec n Hn) as [Hn1 Hn2].
  destruct (Z.log2_spec (Z.pos d) (Pos2Z.is_pos d)) as [Hd1 Hd2].
  pose proof (Z.log2_nonneg n) as Hln.
  pose proof (Z.log2_nonneg (Z.pos d)) as Hld.
  unfold Qlog2. cbn [Qnum Qden].
  set (ln := Z.log2 n) in *. set (ld := Z.log2 (Z.pos d)) in *.
  assert (n # d == inject_Z n / inject_Z (Z.pos d)) as Hdiv by apply Qmake_Qdiv.
  assert (0 < inject_Z (Z.pos d)) as HD
    by (change 0 with (inject_Z 0); rewrite <- Zlt_Qlt; lia).
  assert (2 ^ ld <= inject_Z (Z.pos d)) as HD1.
  { rewrite <- pow2_Z by done. by rewrite <- Zle_Qle. }
  assert (inject_Z (Z.pos d) < 2 ^ (ld + 1)) as HD2.
  { rewrite <- pow2_Z by lia. by rewrite <- Zlt_Qlt. }
  assert (2 ^ ln <= inject_Z n) as HN1.
  { rewrite <- pow2_Z by done. by rewrite <- Zle_Qle. }
  assert (inject_Z n < 2 ^ (ln + 1)) as HN2.
  { rewrite <- pow2_Z by lia. by rewrite <- Zlt_Qlt. }
  destruct (Qle_bool (2 ^ (ln - ld)) (n # d)) eqn:Hle.
  - apply Qle_bool_iff in Hle. split; [done|].
    rewrite Hdiv. apply Qlt_shift_div_r; [done|].
    eapply Qlt_le_trans; [exact HN2|].
    replace (ln + 1)%Z with ((ln - ld + 1) + ld)%Z by lia.
    rewrite pow2_plus. apply Qmult_le_l; [apply pow2_pos|done].
  - assert (~ 2 ^ (ln - ld) <= n # d) as Hnle.
    { intros H. apply Qle_bool_iff in H. congruence. }
    apply Qnot_le_lt in Hnle.
    replace (ln - ld - 1 + 1)%Z with (ln - ld)%Z by lia. split; [|done].
    rewrite Hdiv. apply Qle_shift_div_l; [done|].
    eapply Qle_trans; [|exact HN1].
    replace ln with ((ln - ld - 1) + (ld + 1))%Z at 2 by lia.
    rewrite pow2_plus. apply Qmult_le_l; [apply pow2_pos|].
    by apply Qlt_le_weak.
Qed.

Lemma Qlog2_unique (x : Q) (e : Z) :
  2 ^ e <= x -> x < 2 ^ (e + 1) -> Qlog2 x = e.
Proof.
  intros He1 He2.
  assert (0 < x) as Hx by (eapply Qlt_le_trans; [apply (pow2_pos e)|done]).
  destruct (Qlog2_spec x Hx) as [Hl1 Hl2].
  assert (Qlog2 x < e + 1)%Z
    by (apply pow2_lt_inv; eapply Qle_lt_trans; [exact Hl1|done]).
  assert (e < Qlog2 x + 1)%Z
    by (apply pow2_lt_inv; eapply Qle_lt_trans; [exact He1|done]).
  lia.
Qed.

Lemma Qlog2_comp (x y : Q) : 0 < x -> x == y -> Qlog2 x = Qlog2 y.
Proof.
  intros Hx Hxy. destruct (Qlog2_spec x Hx) as [H1 H2]. symmetry.
  apply Qlog2_unique; by rewrite <- Hxy.
Qed.

Lemma Qlog2_le (x y : Q) : 0 < x -> x <= y -> (Qlog2 x <= Qlog2 y)%Z.
Proof.
  intros Hx Hxy.
  assert (0 < y) as Hy by (by eapply Qlt_le_trans).
  destruct (Qlog2_spec x Hx) as [H1 _]. destruct (Qlog2_spec y Hy) as [_ H2].
  assert (Qlog2 x < Qlog2 y + 1)%Z; [|lia].
  apply pow2_lt_inv. eapply Qle_lt_trans; [exact H1|].
  by eapply Qle_lt_trans.
Qed.

Lemma round_half_even_cases (x : Q) :
  round_half_even x = Qfloor x /\ x - inject_Z (Qfloor x) <= 1 # 2 \/
  round_half_even x = (Qfloor x + 1)%Z /\ 1 # 2 <= x - inject_Z (Qfloor x).
Proof.
  unfold round_half_even.
  destruct (Qcompare_spec (x - inject_Z (Qfloor x)) (1 # 2)) as [H|H|H].
  - destruct (Z.even (Qfloor x)); [left|right]; (split; [done|]);
      rewrite H; apply Qle_refl.
  - left. split; [done|]. by apply Qlt_le_weak.
  - right. split; [done|]. by apply Qlt_le_weak.
Qed.

Lemma round_half_even_le (x : Q) (z : Z) :
  x <= inject_Z z -> (round_half_even x <= z)%Z.
Proof.
  intros Hz. pose proof (Qfloor_le x) as Hf.
  destruct (round_half_even_cases x) as [[-> _]|[-> Hfrac]].
  - rewrite Zle_Qle. by eapply Qle_trans.
  - assert (inject_Z (Qfloor x) < inject_Z z) as Hlt by lra.
    rewrite <- Zlt_Qlt in Hlt. lia.
Qed.

Lemma round_half_even_ge (x : Q) (z : Z) :
  inject_Z z <= x -> (z <= round_half_even x)%Z.
Proof.
  intros Hz. pose proof (Qlt_floor x) as Hf.
  assert (inject_Z z < inject_Z (Qfloor x + 1)) as Hlt
    by (by eapply Qle_lt_trans).
  rewrite <- Zlt_Qlt in Hlt.
  destruct (round_half_even_cases x) as [[-> _]|[-> _]]; lia.
Qed.

#[local] Instance round_half_even_comp : Proper (Qeq ==> eq) round_half_even.
Proof.
  intros x y Hxy. unfold round_half_even.
  rewrite (Qfloor_comp x y Hxy).
  by rewrite (Qcompare_comp (x - inject_Z (Qfloor y)) (y - inject_Z (Qfloor y))
                (ltac:(by rewrite Hxy)) (1 # 2) (1 # 2) (Qeq_refl _)).
Qed.

Lemma round_half_even_mono (x y : Q) :
  x <= y -> (round_half_even x <= round_half_even y)%Z.
Proof.
  intros Hxy. pose proof (Qfloor_resp_le x y Hxy) as Hfloor.
  destruct (Z.eq_dec (Qfloor x) (Qfloor y)) as [Heq|Hne].
  - unfold round_half_even. rewrite Heq.
    destruct (Qcompare_spec (x - inject_Z (Qfloor y)) (1 # 2)) as [Hx|Hx|Hx],
      (Qcompare_spec (y - inject_Z (Qfloor y)) (1 # 2)) as [Hy|Hy|Hy];
      try lia; try lra; destruct (Z.even (Qfloor y)); lia.
  - assert (round_half_even x <= Qfloor x + 1)%Z
      by (destruct (round_half_even_cases x) as [[-> _]|[-> _]]; lia).
    assert (Qfloor y <= round_half_even y)%Z
      by (destruct (round_half_even_cases y) as [[-> _]|[-> _]]; lia).
    lia.
Qed.

Lemma ulp_pos (x : Q) : 0 < ulp x.
Proof. apply pow2_pos. Qed.

Lemma ulp_comp (x y : Q) : 0 < x -> x == y -> ulp x = ulp y.
Proof. intros Hx Hxy. unfold ulp. by rewrite (Qlog2_comp x y). Qed.

Lemma round64_pos_comp (x y : Q) :
  0 < x -> x == y -> round64_pos x == round64_pos y.
Proof.
  intros Hx Hxy. unfold round64_pos. rewrite (ulp_comp x y) by done.
  by rewrite Hxy.
Qed.

Lemma round64_pos_le (x c : Q) (z : Z) :
  x <= c -> c == inject_Z z * ulp x -> round64_pos x <= c.
Proof.
  intros Hxc Hc. unfold round64_pos. rewrite Hc.
  apply Qmult_le_compat_r; [|apply Qlt_le_weak, ulp_pos].
  rewrite <- Zle_Qle. apply round_half_even_le.
  apply Qle_shift_div_r; [apply ulp_pos|]. by rewrite <- Hc.
Qed.

Lemma round64_pos_ge (x c : Q) (z : Z) :
  c <= x -> c == inject_Z z * ulp x -> c <= round64_pos x.
Proof.
  intros Hxc Hc. unfold round64_pos. rewrite Hc.
  apply Qmult_le_compat_r; [|apply Qlt_le_weak, ulp_pos].
  rewrite <- Zle_Qle. apply round_half_even_ge.
  apply Qle_shift_div_l; [apply ulp_pos|]. by rewrite <- Hc.
Qed.

Lemma round64_pos_mono (x y : Q) :
  0 < x -> x <= y -> round64_pos x <= round64_pos y.
Proof.
  intros Hx Hxy.
  assert (0 < y) as Hy by (by eapply Qlt_le_trans).
  pose proof (Qlog2_le x y Hx Hxy) as Hlog.
  destruct (Qlog2_spec x Hx) as [_ Hx2]. destruct (Qlog2_spec y Hy) as [Hy1 _].
  destruct (Z.eq_dec (Z.max (Qlog2 x - 52) emin) (Z.max (Qlog2 y - 52) emin))
    as [Heq|Hne].
  - unfold round64_pos, ulp. rewrite Heq.
    apply Qmult_le_compat_r; [|apply Qlt_le_weak, pow2_pos].
    rewrite <- Zle_Qle. apply round_half_even_mono.
    apply Qmult_le_compat_r; [done|].
    apply Qlt_le_weak, Qinv_lt_0_compat, pow2_pos.
  - apply Qle_trans with (2 ^ Qlog2 y).
    + apply (round64_pos_le x _ (2 ^ (Qlog2 y - Z.max (Qlog2 x - 52) emin))).
      * apply Qlt_le_weak. eapply Qlt_le_trans; [exact Hx2|].
        apply pow2_le. lia.
      * apply pow2_multiple. lia.
    + apply (round64_pos_ge y _ (2 ^ (Qlog2 y - Z.max (Qlog2 y - 52) emin))).
      * done.
      * apply pow2_multiple. lia.
Qed.

Lemma round64_zero (x : Q) : x == 0 -> round64 x = 0.
Proof.
  intros Hx. unfold round64. destruct x as [n d]. cbn.
  unfold Qeq in Hx. cbn in Hx. by replace n with 0%Z by lia.
Qed.

Lemma round64_positive (x : Q) : 0 < x -> round64 x = round64_pos x.
Proof.
  intros Hx. unfold round64. destruct x as [[|n|n] d]; try done.
Qed.

Lemma round64_comp (x y : Q) : 0 <= x -> x == y -> round64 x == round64 y.
Proof.
  intros Hx Hxy. destruct (Qle_lt_or_eq _ _ Hx) as [Hpos|Hzero].
  - rewrite !round64_positive; [by apply round64_pos_comp|by rewrite <- Hxy|done].
  - rewrite (round64_zero x), (round64_zero y); [apply Qeq_refl| |].
    + by rewrite <- Hxy, <- Hzero.
    + by rewrite <- Hzero.
Qed.

Lemma round64_nonneg (x : Q) : 0 <= x -> 0 <= round64 x.
Proof.
  intros Hx. destruct (Qle_lt_or_eq _ _ Hx) as [Hpos|Hzero].
  - rewrite round64_positive by done.
    apply (round64_pos_ge x 0 0); [done|]. by rewrite Qmult_0_l.
  - rewrite round64_zero by (by rewrite <- Hzero). apply Qle_refl.
Qed.

Lemma round64_mono (x y : Q) : 0 <= x -> x <= y -> round64 x <= round64 y.
Proof.
  intros Hx Hxy. destruct (Qle_lt_or_eq _ _ Hx) as [Hpos|Hzero].
  - rewrite !round64_positive; [by apply round64_pos_mono| |done].
    by eapply Qlt_le_trans.
  - rewrite (round64_zero x) by (by rewrite <- Hzero). apply round64_nonneg.
    by eapply Qle_trans.
Qed.

(** An integer below [2^53] is a number of binary64: rounding does not
    cross it. *)
Lemma round64_le_Z (x : Q) (n : Z) :
  0 <= x -> x <= inject_Z n -> (n < 2 ^ 53)%Z -> round64 x <= inject_Z n.
Proof.
  intros Hx Hn Hsmall. destruct (Qle_lt_or_eq _ _ Hx) as [Hpos|Hzero].
  - rewrite round64_positive by done.
    destruct (Qlog2_spec x Hpos) as [Hlog _].
    assert (Qlog2 x < 53)%Z as Hexp.
    { apply pow2_lt_inv. eapply Qle_lt_trans; [exact Hlog|].
      eapply Qle_lt_trans; [exact Hn|].
      rewrite <- pow2_Z by lia. by rewrite <- Zlt_Qlt. }
    apply (round64_pos_le x _ (n * 2 ^ (- Z.max (Qlog2 x - 52) emin))); [done|].
    unfold ulp. rewrite inject_Z_mult, pow2_Z by (unfold emin; lia).
    rewrite <- Qmult_assoc, <- pow2_plus.
    replace (- Z.max (Qlog2 x - 52) emin + Z.max (Qlog2 x - 52) emin)%Z
      with 0%Z by lia.
    by rewrite Qmult_1_r.
  - rewrite round64_zero by (by rewrite <- Hzero). by eapply Qle_trans.
Qed.

Lemma quotient_bounds (a b : nat) :
  (0 < b)%nat -> (a <= b)%nat ->
  0 <= inject_Z (Z.of_nat a) / inject_Z (Z.of_nat b) /\
  inject_Z (Z.of_nat a) / inject_Z (Z.of_nat b) <= 1.
Proof.
  intros Hb Hab.
  assert (0 < inject_Z (Z.of_nat b)) as Hpos
    by (change 0 with (inject_Z 0); rewrite <- Zlt_Qlt; lia).
  split.
  - apply Qle_shift_div_l; [done|]. rewrite Qmult_0_l.
    change 0 with (inject_Z 0). rewrite <- Zle_Qle. lia.
  - apply Qle_shift_div_r; [done|]. rewrite Qmult_1_l, <- Zle_Qle. lia.
Qed.

Lemma quotient_mono (a a' b : nat) :
  (0 < b)%nat -> (a <= a')%nat ->
  inject_Z (Z.of_nat a) / inject_Z (Z.of_nat b)
    <= inject_Z (Z.of_nat a') / inject_Z (Z.of_nat b).
Proof.
  intros Hb Ha.
  assert (0 < inject_Z (Z.of_nat b)) as Hpos
    by (change 0 with (inject_Z 0); rewrite <- Zlt_Qlt; lia).
  apply Qmult_le_compat_r; [rewrite <- Zle_Qle; lia|].
  by apply Qlt_le_weak, Qinv_lt_0_compat.
Qed.

Lemma percentage_bounds (a b : nat) :
  (a <= b)%nat -> (0 < b)%nat ->
  0 <= percentage a b /\ percentage a b <= 100.
Proof.
  intros Hab Hb. unfold percentage.
  destruct (quotient_bounds a b Hb Hab) as [Hq0 Hq1].
  pose proof (round64_nonneg _ Hq0) as Hr0.
  pose proof (round64_le_Z _ 1 Hq0 Hq1 eq_refl) as Hr1.
  change (inject_Z 1) with 1 in Hr1.
  split.
  - apply round64_nonneg. lra.
  - change 100 with (inject_Z 100) at 2.
    apply (round64_le_Z _ 100); [lra| |done].
    change (inject_Z 100) with 100. lra.
Qed.

Lemma percentage_mono (a a' b : nat) :
  (0 < b)%nat -> (a <= a')%nat -> percentage a b <= percentage a' b.
Proof.
  intros Hb Ha. unfold percentage.
  assert (0 <= inject_Z (Z.of_nat a) / inject_Z (Z.of_nat b)) as Hq0.
  { apply Qle_shift_div_l.
    - change 0 with (inject_Z 0); rewrite <- Zlt_Qlt; lia.
    - rewrite Qmult_0_l. change 0 with (inject_Z 0). rewrite <- Zle_Qle. lia. }
  pose proof (round64_nonneg _ Hq0) as Hr0.
  pose proof (round64_mono _ _ Hq0 (quotient_mono a a' b Hb Ha)) as Hr.
  apply round64_mono; lra.
Qed.

Lemma percentage_none (b : nat) : percentage 0 b == 0.
Proof.
  unfold percentage.
  rewrite (round64_zero (inject_Z (Z.of_nat 0) / inject_Z (Z.of_nat b)))
    by (by unfold Qeq).
  by rewrite round64_zero.
Qed.

Lemma percentage_full (b : nat) : (0 < b)%nat -> percentage b b == 100.
Proof.
  intros Hb. unfold percentage.
  assert (inject_Z (Z.of_nat b) / inject_Z (Z.of_nat b) == 1) as Hone.
  { apply Qmult_inv_r. intros Hzero. unfold Qeq in Hzero. cbn in Hzero. lia. }
  assert (round64 (inject_Z (Z.of_nat b) / inject_Z (Z.of_nat b)) == 1) as Hq.
  { rewrite (round64_comp _ 1); [by vm_compute|by rewrite Hone|done]. }
  rewrite (round64_comp _ 100); [by vm_compute|rewrite Hq; by vm_compute|].
  by rewrite Hq.
Qed.

Lemma percentage_below (a b : nat) :
  (a < b)%nat -> (Z.of_nat b <= 2 ^ 53)%Z -> percentage a b < 100.
Proof.
  intros Hab Hb. unfold percentage.
  destruct (quotient_bounds a b ltac:(lia) ltac:(lia)) as [Hq0 _].
  assert (inject_Z (Z.of_nat a) / inject_Z (Z.of_nat b) <= below_one) as Hq1.
  { apply Qle_shift_div_r.
    - change 0 with (inject_Z 0); rewrite <- Zlt_Qlt; lia.
    - unfold Qle, below_one. cbn. lia. }
  pose proof (round64_nonneg _ Hq0) as Hr0.
  pose proof (round64_mono _ _ Hq0 Hq1) as Hr1.
  assert (round64 below_one == below_one) as Heq by (by vm_compute).
  rewrite Heq in Hr1.
  eapply Qle_lt_trans; [apply (round64_mono _ (below_one * 100))|by vm_compute].
  - lra.
  - lra.
Qed.

Lemma percentage_some (a b : nat) :
  (0 < a)%nat -> (0 < b)%nat -> (Z.of_nat b <= 2 ^ 53)%Z -> 0 < percentage a b.
Proof.
  intros Ha Hb Hsmall. unfold percentage.
  assert (least_quotient <= inject_Z (Z.of_nat a) / inject_Z (Z.of_nat b)) as Hq.
  { apply Qle_shift_div_l.
    - change 0 with (inject_Z 0); rewrite <- Zlt_Qlt; lia.
    - unfold Qle, least_quotient. cbn. lia. }
  assert (0 <= least_quotient) as H0 by done.
  pose proof (round64_mono _ _ H0 Hq) as Hr.
  assert (round64 least_quotient == least_quotient) as Heq by (by vm_compute).
  rewrite Heq in Hr.
  eapply Qlt_le_trans; [|apply (round64_mono (least_quotient * 100))].
  - by vm_compute.
  - done.
  - unfold least_quotient in *. lra.
Qed.

End binary64.

(** The values that Python prints as 33.33333333333333,
    28.000000000000004 and 50.0. *)
Example percentage_values :
  (percentage 1 3 == 2345624805922133 # 70368744177664)%Q ∧
  (percentage 7 25 == 7881299347898369 # 281474976710656)%Q ∧
  (percentage 1 2 == 50)%Q.
Proof. repeat split; by vm_compute. Qed.

(** The floats of the kernel give the same numbers. *)
Example percentage_of_kernel_floats :
  forallb same_percentage
    [(0, 1); (1, 1); (1, 2); (1, 3); (2, 3); (1, 7); (7, 25); (0, 5); (5, 5);
     (99, 100); (577, 600); (1, 1000); (999, 1000); (1234, 5678);
     (3, 4096); (4095, 4096); (17, 9973)]%Z = true.
Proof. by vm_compute. Qed.

(** Above 2^53 a quotient below 1 can round to 1. *)
Example quotient_rounds_to_one :
  (round64 (18014398509481983 # 18014398509481984) == 1)%Q.
Proof. by vm_compute. Qed.

(** ** The gap against required controls *)

Section gap.

Context (self : ComplianceMapper).

Lemma elem_of_find_implemented (s c : string) (policies : list Policy) :
  c ∈ find_implemented self s policies ↔
  ∃ p, p ∈ policies ∧ c ∈ default [] (map_policy_to_standards self p !! s).
Proof.
  unfold find_implemented.
  enough (∀ acc : gset string,
    c ∈ foldl (λ implemented policy,
                 match map_policy_to_standards self policy !! s with
                 | Some controls => implemented ∪ list_to_set controls
                 | None => implemented
                 end) acc policies ↔
    c ∈ acc ∨
    ∃ p, p ∈ policies ∧ c ∈ default [] (map_policy_to_standards self p !! s))
    as Hgen.
  { rewrite Hgen. split; [|by right].
    intros [Hemp|?]; [by apply elem_of_empty in Hemp|done]. }
  induction policies as [|p ps IH]; intros acc; cbn.
  - split; [by left|]. intros [?|(p & Hp & _)]; [done|]. by inversion Hp.
  - rewrite IH. split.
    + intros [Hacc|(q & Hq & Hc)].
      * destruct (map_policy_to_standards self p !! s) as [l|] eqn:Hp;
          [|by left].
        apply elem_of_union in Hacc as [Hacc|Hacc]; [by left|].
        right. exists p. split; [by left|]. rewrite Hp.
        by apply elem_of_list_to_set in Hacc.
      * right. exists q. split; [by right|done].
    + intros [Hacc|(q & Hq & Hc)].
      * left. destruct (map_policy_to_standards self p !! s); [|done].
        by apply elem_of_union_l.
      * apply elem_of_cons in Hq as [->|Hq].
        -- left. destruct (map_policy_to_standards self p !! s) as [l|];
             [|by inversion Hc].
           apply elem_of_union_r. by apply elem_of_list_to_set.
        -- right. by exists q.
Qed.

Lemma size_list_to_set_le (l : list string) :
  size (list_to_set l : gset string) ≤ length l.
Proof.
  induction l as [|x l IH]; cbn.
  - by rewrite size_empty.
  - rewrite size_union_alt, size_singleton.
    pose proof (subseteq_size (list_to_set l ∖ {[x]}) (list_to_set l : gset string))
      as Hle.
    specialize (Hle (subseteq_difference_l _ _ _ (reflexivity _))). lia.
Qed.

(** The result for a known standard and a non-empty list of controls. *)
Lemma check_compliance_gap_known (s : string) (required : list string)
    (policies : list Policy) :
  is_Some (standards self !! s) → required ≠ [] →
  check_compliance_gap self s required policies =
    inr {| standard := s;
           required_controls := required;
           implemented_controls :=
             elements (find_implemented self s policies ∩ list_to_set required);
           missing_controls :=
             elements (list_to_set required ∖ find_implemented self s policies);
           coverage_percentage :=
             percentage
               (size (find_implemented self s policies ∩ list_to_set required))
               (length required) |}.
Proof.
  intros [std Hstd] Hreq. unfold check_compliance_gap. rewrite Hstd.
  case_decide as Hlen; [|done]. by destruct required.
Qed.

End gap.

(** C3. For a standard of the catalog and any batch of policies, an empty
    list of required controls makes the gap check fail with a division by
    zero: nothing guards the quotient. *)
Theorem empty_required_divides_by_zero (self : ComplianceMapper) (s : string)
    (policies : list Policy) :
  is_Some (standards self !! s) →
  check_compliance_gap self s [] policies = inl ZeroDivisionError.
Proof. intros [std Hstd]. unfold check_compliance_gap. by rewrite Hstd. Qed.

Lemma empty_required_divides_by_zero_soc2 :
  is_Some (standards catalog !! "SOC-2") ∧
  check_compliance_gap catalog "SOC-2" [] [policy_A; policy_B]
    = inl ZeroDivisionError.
Proof.
  split; [by eexists|].
  apply (empty_required_divides_by_zero catalog "SOC-2" [policy_A; policy_B]).
  by eexists.
Defined.

(** C4. The gap check fails with the error that names the standard
    exactly when the standard id is no key of the catalog; for a key of
    the catalog and a non-empty list of required controls it returns a
    result, for that standard. *)
Theorem unknown_standard_error (self : ComplianceMapper) (s : string)
    (required : list string) (policies : list Policy) :
  (standards self !! s = None ↔
   check_compliance_gap self s required policies
     = inl (ValueError ("Standard " +:+ s +:+ " not found"))) ∧
  (standards self !! s = None ↔
   ∃ msg, check_compliance_gap self s required policies = inl (ValueError msg)) ∧
  (is_Some (standards self !! s) → required ≠ [] →
   ∃ r, check_compliance_gap self s required policies = inr r ∧ standard r = s).
Proof.
  assert (∀ msg, check_compliance_gap self s required policies
                   = inl (ValueError msg) → standards self !! s = None) as Hback.
  { intros msg. unfold check_compliance_gap.
    destruct (standards self !! s); [|done]. by case_decide. }
  assert (standards self !! s = None →
          check_compliance_gap self s required policies
            = inl (ValueError ("Standard " +:+ s +:+ " not found"))) as Hforth.
  { intros Hs. unfold check_compliance_gap. by rewrite Hs. }
  split; [|split].
  - split; [done|]. apply Hback.
  - split; [by eauto|]. intros [msg Hmsg]. by apply (Hback msg).
  - intros Hknown Hreq. rewrite check_compliance_gap_known by done. by eexists.
Qed.

(** The example of the documentation for an unknown standard. *)
Example unknown_standard_iso_9999 :
  check_compliance_gap catalog "ISO-9999" ["A.1"] [policy_A; policy_B]
    = inl (ValueError "Standard ISO-9999 not found").
Proof. by vm_compute. Qed.

(** C6. In every result of the gap check, the implemented and the missing
    controls together are exactly the set of the required controls, no
    control is in both, and neither list holds a control twice, however
    often the required list repeats it. *)
Theorem gap_partitions_required (self : ComplianceMapper) (s : string)
    (required : list string) (policies : list Policy) (r : GapResult) :
  check_compliance_gap self s required policies = inr r →
  required_controls r = required ∧
  list_to_set (implemented_controls r) ∪ list_to_set (missing_controls r)
    =@{gset string} list_to_set (required_controls r) ∧
  (∀ c, c ∈ implemented_controls r → c ∉ missing_controls r) ∧
  NoDup (implemented_controls r) ∧ NoDup (missing_controls r).
Proof.
  unfold check_compliance_gap. destruct (standards self !! s) as [std|]; [|done].
  case_decide; [done|]. intros [= <-]; cbn. split; [done|].
  split; [|split; [|split; apply NoDup_elements]].
  - rewrite !list_to_set_elements_L. apply set_eq. intros c.
    rewrite elem_of_union, elem_of_intersection, elem_of_difference.
    destruct (decide (c ∈ find_implemented self s policies)); tauto.
  - intros c. rewrite !elem_of_elements, elem_of_intersection, elem_of_difference.
    tauto.
Qed.

Lemma gap_partitions_required_soc2 :
  ∃ r,
    check_compliance_gap catalog "SOC-2" ["CC6.1"; "CC6.2"; "CC6.1"]
      [policy_A; policy_B] = inr r ∧
    required_controls r = ["CC6.1"; "CC6.2"; "CC6.1"] ∧
    list_to_set (implemented_controls r) ∪ list_to_set (missing_controls r)
      =@{gset string} list_to_set (required_controls r) ∧
    (∀ c, c ∈ implemented_controls r → c ∉ missing_controls r) ∧
    NoDup (implemented_controls r) ∧ NoDup (missing_controls r).
Proof.
  eexists. split; [by vm_compute|].
  apply (gap_partitions_required catalog "SOC-2" _ [policy_A; policy_B]).
  by vm_compute.
Defined.

(** C7. For a standard of the catalog, a non-empty list of required
    controls and any batch of policies, the gap check returns a result
    whose coverage percentage lies between 0 and 100. *)
Theorem coverage_between_0_and_100 (self : ComplianceMapper) (s : string)
    (required : list string) (policies : list Policy) :
  is_Some (standards self !! s) → required ≠ [] →
  ∃ r, check_compliance_gap self s required policies = inr r ∧
       (0 <= coverage_percentage r)%Q ∧ (coverage_percentage r <= 100)%Q.
Proof.
  intros Hknown Hreq. rewrite check_compliance_gap_known by done.
  eexists. split; [done|]. cbn. apply percentage_bounds.
  - etrans; [|apply size_list_to_set_le]. apply subseteq_size.
    apply intersection_subseteq_r.
  - destruct required; [done|]. cbn. lia.
Qed.

Lemma coverage_between_0_and_100_soc2 :
  is_Some (standards catalog !! "SOC-2") ∧ ["CC6.1"; "CC6.2"] ≠ [] ∧
  ∃ r, check_compliance_gap catalog "SOC-2" ["CC6.1"; "CC6.2"]
         [policy_A; policy_B] = inr r ∧
       (0 <= coverage_percentage r)%Q ∧ (coverage_percentage r <= 100)%Q.
Proof.
  split; [by eexists|]. split; [done|].
  apply (coverage_between_0_and_100 catalog "SOC-2" ["CC6.1"; "CC6.2"]
           [policy_A; policy_B]); [by eexists|done].
Defined.

(** The gap example of the documentation. *)
Example gap_of_A_and_B :
  ∃ r, check_compliance_gap catalog "SOC-2" ["CC6.1"; "CC6.2"]
         [policy_A; policy_B] = inr r ∧
       implemented_controls r = ["CC6.1"] ∧ missing_controls r = ["CC6.2"] ∧
       (coverage_percentage r == 50)%Q.
Proof. eexists. split; [by vm_compute|]. by repeat split. Qed.

(** C10. The quotient divides the number of distinct implemented required
    controls by the length of the required list, repetitions included: a
    required list that names one implemented control twice has nothing
    missing and yet a coverage of 50, below 100. *)
Theorem duplicate_required_control_halves_coverage (self : ComplianceMapper)
    (s c : string) (policies : list Policy) :
  is_Some (standards self !! s) →
  (∃ p, p ∈ policies ∧ c ∈ default [] (map_policy_to_standards self p !! s)) →
  ∃ r, check_compliance_gap self s [c; c] policies = inr r ∧
       implemented_controls r = [c] ∧ missing_controls r = [] ∧
       coverage_percentage r
         = percentage (length (implemented_controls r))
                      (length (required_controls r)) ∧
       (coverage_percentage r == 50)%Q ∧ (coverage_percentage r < 100)%Q.
Proof.
  intros Hknown Himpl. rewrite check_compliance_gap_known by done.
  apply elem_of_find_implemented in Himpl.
  assert (find_implemented self s policies ∩ list_to_set [c; c]
            =@{gset string} {[c]}) as ->.
  { apply set_eq. intros x. cbn.
    rewrite elem_of_intersection, !elem_of_union, elem_of_singleton.
    split; [|by intros ->; auto]. intros (_ & [?|[?|Hemp]]); [done..|].
    by apply elem_of_empty in Hemp. }
  assert (list_to_set [c; c] ∖ find_implemented self s policies
            =@{gset string} ∅) as ->.
  { apply set_eq. intros x. cbn.
    rewrite elem_of_difference, !elem_of_union, elem_of_singleton.
    split; [|by intros ?%elem_of_empty].
    intros ([->|[->|Hemp]] & Hnot); [done..|]. by apply elem_of_empty in Hemp. }
  eexists. split; [done|]. cbn.
  rewrite elements_singleton, elements_empty, size_singleton. by repeat split.
Qed.

Lemma duplicate_required_control_halves_coverage_soc2 :
  is_Some (standards catalog !! "SOC-2") ∧
  (∃ p, p ∈ [policy_A; policy_B] ∧
        "CC6.1" ∈ default [] (map_policy_to_standards catalog p !! "SOC-2")) ∧
  ∃ r, check_compliance_gap catalog "SOC-2" ["CC6.1"; "CC6.1"]
         [policy_A; policy_B] = inr r ∧
       implemented_controls r = ["CC6.1"] ∧ missing_controls r = [] ∧
       coverage_percentage r
         = percentage (length (implemented_controls r))
                      (length (required_controls r)) ∧
       (coverage_percentage r == 50)%Q ∧ (coverage_percentage r < 100)%Q.
Proof.
  assert (∃ p, p ∈ [policy_A; policy_B] ∧
               "CC6.1" ∈ default [] (map_policy_to_standards catalog p !! "SOC-2"))
    as Himpl.
  { exists policy_A. split; [by left|]. vm_compute. by left. }
  split; [by eexists|]. split; [done|].
  apply (duplicate_required_control_halves_coverage catalog "SOC-2" "CC6.1"
           [policy_A; policy_B]); [by eexists|done].
Defined.

(** ** References and the hyphens of a standard id *)

Section hyphens.

Lemma split_hyphen_count (s : string) :
  length (split_hyphen s) = S (count_hyphens s).
Proof.
  induction s as [|c rest IH]; [done|]. cbn.
  destruct (Ascii.eqb c hyphen); cbn; [by rewrite IH|].
  destruct (split_hyphen rest); cbn in *; lia.
Qed.

Lemma append_String (c : Ascii.ascii) (a b : string) :
  String c a +:+ b = String c (a +:+ b).
Proof. reflexivity. Qed.

Lemma count_hyphens_app (a b : string) :
  count_hyphens (a +:+ b) = count_hyphens a + count_hyphens b.
Proof.
  induction a as [|c a IH]; [done|].
  rewrite append_String. cbn [count_hyphens]. rewrite IH. lia.
Qed.

Lemma has_hyphen_count (s : string) :
  has_hyphen s = false ↔ count_hyphens s = 0.
Proof.
  induction s as [|c rest IH]; [done|]. cbn.
  destruct (Ascii.eqb c hyphen); cbn; [split; [done|lia]|done].
Qed.

Lemma split_hyphen_plain (t : string) :
  has_hyphen t = false → split_hyphen t = [t].
Proof.
  induction t as [|c t IH]; [done|]. cbn.
  destruct (Ascii.eqb c hyphen); [done|]. cbn. intros Ht. by rewrite IH.
Qed.

Lemma split_hyphen_app (t rest : string) :
  has_hyphen t = false →
  split_hyphen (t +:+ "-" +:+ rest) = t :: split_hyphen rest.
Proof.
  induction t as [|c t IH]; [done|].
  rewrite append_String. cbn [split_hyphen has_hyphen].
  destruct (Ascii.eqb c hyphen); [done|]. cbn [orb]. intros Ht. by rewrite IH.
Qed.

Lemma string_app_assoc (a b c : string) : (a +:+ b) +:+ c = a +:+ b +:+ c.
Proof.
  induction a as [|x a IH]; [done|]. rewrite !append_String. by rewrite IH.
Qed.

Lemma parse_reference_split (ref : string) :
  parse_reference ref =
    match split_hyphen ref with
    | t0 :: t1 :: [] => (t0 +:+ "-" +:+ t1, None)
    | t0 :: t1 :: rest => (t0 +:+ "-" +:+ t1, Some (join_hyphen rest))
    | _ => (ref, None)
    end.
Proof.
  unfold parse_reference.
  destruct (split_hyphen ref) as [|t0 [|t1 [|t2 rest]]]; cbn; try done.
Qed.

Lemma parse_reference_hyphens (ref : string) :
  count_hyphens (parse_reference ref).1 = count_hyphens ref `min` 1 ∧
  (is_Some (parse_reference ref).2 ↔ 2 ≤ count_hyphens ref).
Proof.
  rewrite parse_reference_split.
  pose proof (split_hyphen_count ref) as Hlen.
  pose proof (split_hyphen_tokens ref) as Htok.
  destruct (split_hyphen ref) as [|t0 [|t1 rest]]; cbn in Hlen; [lia| |].
  - cbn. split; [lia|]. split; [by intros [? ?]|lia].
  - inversion_clear Htok as [|? ? H0 Htok']. inversion_clear Htok' as [|? ? H1 _].
    apply has_hyphen_count in H0, H1.
    assert (count_hyphens (t0 +:+ "-" +:+ t1) = 1) as Hone.
    { rewrite !count_hyphens_app, H0, H1. done. }
    destruct rest as [|t2 rest]; cbn [fst snd]; rewrite Hone.
    + cbn in Hlen. split; [lia|]. split; [by intros [? ?]|lia].
    + cbn in Hlen. split; [lia|]. split; [lia|by eauto].
Qed.

End hyphens.

(** X1. A reference written as two tokens without hyphen, joined by a
    hyphen, parses to itself as standard id with no control id; followed
    by a hyphen and any text, it parses to the same standard id with that
    text as control id, be it empty or with hyphens of its own. A single
    token is a standard id of its own. *)
Theorem format_then_parse (t0 t1 : string) :
  has_hyphen t0 = false → has_hyphen t1 = false →
  parse_reference t0 = (t0, None) ∧
  parse_reference (t0 +:+ "-" +:+ t1) = (t0 +:+ "-" +:+ t1, None) ∧
  ∀ c, parse_reference (t0 +:+ "-" +:+ t1 +:+ "-" +:+ c)
         = (t0 +:+ "-" +:+ t1, Some c).
Proof.
  intros H0 H1. rewrite !parse_reference_split. split; [|split].
  - by rewrite split_hyphen_plain.
  - by rewrite split_hyphen_app, split_hyphen_plain.
  - intros c. rewrite parse_reference_split, !split_hyphen_app by done.
    destruct (split_hyphen_cons c) as (t & ts & Hc).
    rewrite Hc, <- Hc. by rewrite join_split_hyphen.
Qed.

Lemma format_then_parse_soc2 :
  has_hyphen "SOC" = false ∧ has_hyphen "2" = false ∧
  parse_reference "SOC" = ("SOC", None) ∧
  parse_reference ("SOC" +:+ "-" +:+ "2") = ("SOC" +:+ "-" +:+ "2", None) ∧
  ∀ c, parse_reference ("SOC" +:+ "-" +:+ "2" +:+ "-" +:+ c)
         = ("SOC" +:+ "-" +:+ "2", Some c).
Proof.
  split; [done|]. split; [done|]. by apply (format_then_parse "SOC" "2").
Defined.

(** X2. Parsing loses nothing: a reference is its standard id, followed
    by a hyphen and its control id when it has one. *)
Theorem parse_then_format (ref : string) :
  ref = match parse_reference ref with
        | (standard_id, Some control_id) => standard_id +:+ "-" +:+ control_id
        | (standard_id, None) => standard_id
        end.
Proof.
  rewrite parse_reference_split.
  pose proof (join_split_hyphen ref) as Hjoin.
  destruct (split_hyphen ref) as [|t0 [|t1 [|t2 rest]]]; try done.
  rewrite <- Hjoin at 1. cbn -[String.append].
  by rewrite string_app_assoc.
Qed.

(** X3. The standard id of a reference holds one hyphen when the
    reference holds any, and none otherwise; the reference has a control
    id exactly when it holds two hyphens or more. *)
Theorem parsed_standard_id_hyphens (ref : string) :
  count_hyphens (parse_reference ref).1 = count_hyphens ref `min` 1 ∧
  (is_Some (parse_reference ref).2 ↔ 2 ≤ count_hyphens ref).
Proof. apply parse_reference_hyphens. Qed.

(** ** What the mapper can and cannot reach *)

Section reach.

Context (self : ComplianceMapper).

Lemma map_policy_key_hyphens (policy : Policy) (s : string) :
  is_Some (map_policy_to_standards self policy !! s) → count_hyphens s ≤ 1.
Proof.
  rewrite map_policy_lookup. case_decide as Hd; [|by intros [? ?]]. intros _.
  destruct Hd as [_ Hex]. apply Exists_exists in Hex as (ref & _ & <-).
  destruct (parse_reference_hyphens ref) as [-> _]. lia.
Qed.

Lemma map_policy_controls_hyphens (policy : Policy) (s c : string)
    (controls : list string) :
  map_policy_to_standards self policy !! s = Some controls →
  c ∈ controls → count_hyphens s = 1.
Proof.
  rewrite map_policy_lookup. case_decide; [|done]. intros [= <-] Hc.
  apply controls_for_elem in Hc as (ref & _ & Hp).
  destruct (parse_reference_hyphens ref) as [Hfst Hsnd].
  rewrite Hp in Hfst, Hsnd. cbn in Hfst, Hsnd.
  assert (2 ≤ count_hyphens ref) by (apply Hsnd; eauto). lia.
Qed.

Lemma map_policy_empty (policy : Policy) :
  map_policy_to_standards self policy = ∅ ↔
  ∀ ref, ref ∈ compliance_refs policy →
         standards self !! (parse_reference ref).1 = None.
Proof.
  split.
  - intros Hempty ref Href.
    destruct (standards self !! (parse_reference ref).1) as [std|] eqn:Hstd;
      [|done].
    pose proof (map_policy_lookup self policy (parse_reference ref).1) as Hl.
    rewrite Hempty, lookup_empty, decide_True in Hl; [done|].
    split; [by eauto|]. apply Exists_exists. by exists ref.
  - intros Hnone. apply map_eq. intros s.
    rewrite map_policy_lookup, lookup_empty, decide_False; [done|].
    intros [[std Hstd] Hex]. apply Exists_exists in Hex as (ref & Href & <-).
    by rewrite (Hnone ref Href) in Hstd.
Qed.

End reach.

(** X4. A standard whose id holds two hyphens or more is never a key of
    the mapping of a policy, whatever the catalog and the references: no
    reference parses to its id. *)
Theorem standard_with_two_hyphens_unmapped (self : ComplianceMapper)
    (policy : Policy) (s : string) :
  2 ≤ count_hyphens s → map_policy_to_standards self policy !! s = None.
Proof.
  intros Hs.
  destruct (map_policy_to_standards self policy !! s) as [l|] eqn:Hl; [|done].
  assert (count_hyphens s ≤ 1); [|lia].
  apply (map_policy_key_hyphens self policy). by rewrite Hl.
Qed.

Lemma standard_with_two_hyphens_unmapped_iso :
  2 ≤ count_hyphens "ISO-27001-2013" ∧
  is_Some (standards catalog_wide !! "ISO-27001-2013") ∧
  "ISO-27001-2013-A.5" ∈ compliance_refs policy_wide ∧
  map_policy_to_standards catalog_wide policy_wide !! "ISO-27001-2013" = None.
Proof.
  split; [cbn; lia|]. split; [by eexists|].
  split; [cbn; do 2 right; by left|].
  apply (standard_with_two_hyphens_unmapped catalog_wide policy_wide).
  cbn; lia.
Defined.

(** X5. A standard whose id holds no hyphen gets no control id from any
    policy: its entry, when there is one, is the empty list. *)
Theorem standard_without_hyphen_has_no_control (self : ComplianceMapper)
    (policy : Policy) (s : string) :
  count_hyphens s = 0 →
  default [] (map_policy_to_standards self policy !! s) = [].
Proof.
  intros Hs.
  destruct (map_policy_to_standards self policy !! s) as [[|c l]|] eqn:Hl;
    [done| |done].
  assert (count_hyphens s = 1); [|lia].
  apply (map_policy_controls_hyphens self policy s c (c :: l) Hl). by left.
Qed.

Lemma standard_without_hyphen_has_no_control_gdpr :
  count_hyphens "GDPR" = 0 ∧
  "GDPR-Art5" ∈ compliance_refs policy_wide ∧
  is_Some (map_policy_to_standards catalog_wide policy_wide !! "GDPR") ∧
  default [] (map_policy_to_standards catalog_wide policy_wide !! "GDPR") = [].
Proof.
  split; [done|]. split; [cbn; right; by left|].
  split; [eexists; by vm_compute|].
  by apply (standard_without_hyphen_has_no_control catalog_wide policy_wide "GDPR").
Defined.

(** X6. The mapping of a policy is empty exactly when none of its
    references parses to a standard id of the catalog; so it is for a
    policy without metadata, and for metadata without a list of
    references. *)
Theorem mapping_empty_iff (self : ComplianceMapper) (policy : Policy) :
  (map_policy_to_standards self policy = ∅ ↔
   ∀ ref, ref ∈ compliance_refs policy →
          standards self !! (parse_reference ref).1 = None) ∧
  (metadata policy = None → map_policy_to_standards self policy = ∅) ∧
  (∀ md, metadata policy = Some md → compliance md = None →
         map_policy_to_standards self policy = ∅).
Proof.
  split; [apply map_policy_empty|]. split.
  - intros Hmd. unfold map_policy_to_standards, compliance_refs.
    by rewrite Hmd.
  - intros md Hmd Hrefs. unfold map_policy_to_standards, compliance_refs.
    by rewrite Hmd, Hrefs.
Qed.

(** ** The catalog is read by its keys only *)

Section keys.

Context (self1 self2 : ComplianceMapper).
Hypothesis same_keys : dom (standards self1) = dom (standards self2).

Lemma same_keys_lookup (s : string) :
  is_Some (standards self1 !! s) ↔ is_Some (standards self2 !! s).
Proof. by rewrite <- !elem_of_dom, same_keys. Qed.

Lemma map_reference_keys (mapping : gmap string (list string)) (ref : string) :
  map_reference self1 mapping ref = map_reference self2 mapping ref.
Proof.
  unfold map_reference.
  set (standard_id := if decide (2 ≤ length (split_hyphen ref))
                      then join_hyphen (take 2 (split_hyphen ref)) else ref).
  pose proof (same_keys_lookup standard_id) as Hk.
  destruct (standards self1 !! standard_id), (standards self2 !! standard_id);
    try done.
  - destruct Hk as [Hk _]. by destruct Hk.
  - destruct Hk as [_ Hk]. by destruct Hk.
Qed.

Lemma map_policy_keys (policy : Policy) :
  map_policy_to_standards self1 policy = map_policy_to_standards self2 policy.
Proof.
  unfold map_policy_to_standards. generalize (∅ : gmap string (list string)).
  induction (compliance_refs policy) as [|ref refs IH]; intros m; [done|].
  cbn. by rewrite map_reference_keys, IH.
Qed.

Lemma report_keys (policies : list Policy) :
  generate_compliance_report self1 policies
    = generate_compliance_report self2 policies.
Proof.
  unfold generate_compliance_report. f_equal.
  generalize (initial_report policies).
  induction policies as [|p ps IH]; intros st; [done|].
  cbn. rewrite <- IH. f_equal. unfold report_policy.
  by rewrite map_policy_keys.
Qed.

Lemma find_implemented_keys (s : string) (policies : list Policy) :
  find_implemented self1 s policies = find_implemented self2 s policies.
Proof.
  unfold find_implemented. generalize (∅ : gset string).
  induction policies as [|p ps IH]; intros acc; [done|].
  cbn. by rewrite map_policy_keys, IH.
Qed.

Lemma gap_keys (s : string) (required : list string) (policies : list Policy) :
  check_compliance_gap self1 s required policies
    = check_compliance_gap self2 s required policies.
Proof.
  unfold check_compliance_gap. rewrite find_implemented_keys.
  pose proof (same_keys_lookup s) as Hk.
  destruct (standards self1 !! s), (standards self2 !! s); try done.
  - destruct Hk as [Hk _]. by destruct Hk.
  - destruct Hk as [_ Hk]. by destruct Hk.
Qed.

End keys.

(** X7. The three operations read the catalog by its keys only: two
    catalogs with the same standard ids give the same mapping, the same
    report and the same gap result, whatever controls their standards
    list. No control id of a policy or of a required list is checked
    against the controls of its standard. *)
Theorem catalog_read_by_keys (self1 self2 : ComplianceMapper) :
  dom (standards self1) = dom (standards self2) →
  (∀ policy,
     map_policy_to_standards self1 policy = map_policy_to_standards self2 policy) ∧
  (∀ policies,
     generate_compliance_report self1 policies
       = generate_compliance_report self2 policies) ∧
  (∀ s required policies,
     check_compliance_gap self1 s required policies
       = check_compliance_gap self2 s required policies).
Proof.
  intros Hk. split; [|split].
  - intros policy. by apply map_policy_keys.
  - intros policies. by apply report_keys.
  - intros s required policies. by apply gap_keys.
Qed.

Lemma catalog_read_by_keys_soc2 :
  dom (standards catalog) = dom (standards catalog_bare) ∧
  (∀ policy,
     map_policy_to_standards catalog policy
       = map_policy_to_standards catalog_bare policy) ∧
  (∀ policies,
     generate_compliance_report catalog policies
       = generate_compliance_report catalog_bare policies) ∧
  (∀ s required policies,
     check_compliance_gap catalog s required policies
       = check_compliance_gap catalog_bare s required policies).
Proof.
  assert (dom (standards catalog) = dom (standards catalog_bare)) as Hk.
  { cbn. by rewrite !dom_singleton_L. }
  split; [done|]. by apply (catalog_read_by_keys catalog catalog_bare).
Defined.

(** ** References in two parts *)

Section parts.

Context (self : ComplianceMapper).

Lemma controls_for_app (s : string) (refs1 refs2 : list string) :
  controls_for s (refs1 ++ refs2) = controls_for s refs1 ++ controls_for s refs2.
Proof. unfold controls_for. apply omap_app. Qed.

Lemma map_policy_app (policy policy1 policy2 : Policy) :
  compliance_refs policy = compliance_refs policy1 ++ compliance_refs policy2 →
  map_policy_to_standards self policy =
    union_with (λ l1 l2, Some (l1 ++ l2))
      (map_policy_to_standards self policy1)
      (map_policy_to_standards self policy2).
Proof.
  intros Hrefs. apply map_eq. intros s.
  rewrite lookup_union_with, !map_policy_lookup, Hrefs, controls_for_app.
  destruct (decide (is_Some (standards self !! s))) as [Hs|Hs].
  - destruct (decide (Exists (λ ref, (parse_reference ref).1 = s)
                             (compliance_refs policy1))) as [H1|H1],
             (decide (Exists (λ ref, (parse_reference ref).1 = s)
                             (compliance_refs policy2))) as [H2|H2].
    + rewrite !decide_True; [done|done|done|].
      split; [done|]. apply Exists_app. by left.
    + rewrite (decide_True (P := _ ∧ Exists _ (_ ++ _))),
        (decide_True (P := _ ∧ Exists _ (compliance_refs policy1))),
        (decide_False (P := _ ∧ Exists _ (compliance_refs policy2)));
        [|by intros [_ ?]|done|split; [done|apply Exists_app; by left]].
      cbn. by rewrite (controls_for_unreferenced s (compliance_refs policy2)),
        app_nil_r.
    + rewrite (decide_True (P := _ ∧ Exists _ (_ ++ _))),
        (decide_False (P := _ ∧ Exists _ (compliance_refs policy1))),
        (decide_True (P := _ ∧ Exists _ (compliance_refs policy2)));
        [|done|by intros [_ ?]|split; [done|apply Exists_app; by right]].
      cbn. by rewrite (controls_for_unreferenced s (compliance_refs policy1)).
    + rewrite !decide_False; [done|by intros [_ ?]|by intros [_ ?]|].
      intros [_ [?|?]%Exists_app]; done.
  - rewrite !decide_False; [done|by intros [? _]..].
Qed.

End parts.

(** X8. When the references of a policy are those of a first policy
    followed by those of a second, its mapping is the two mappings merged:
    the keys of both, and for a key of both the controls of the first
    followed by those of the second. *)
Theorem mapping_of_references_in_two_parts (self : ComplianceMapper)
    (policy policy1 policy2 : Policy) :
  compliance_refs policy = compliance_refs policy1 ++ compliance_refs policy2 →
  map_policy_to_standards self policy =
    union_with (λ l1 l2, Some (l1 ++ l2))
      (map_policy_to_standards self policy1)
      (map_policy_to_standards self policy2).
Proof. apply map_policy_app. Qed.

Lemma mapping_of_references_in_two_parts_soc2 :
  compliance_refs policy_twice = compliance_refs policy_A ++ compliance_refs policy_A ∧
  map_policy_to_standards catalog policy_twice =
    union_with (λ l1 l2, Some (l1 ++ l2))
      (map_policy_to_standards catalog policy_A)
      (map_policy_to_standards catalog policy_A).
Proof.
  split; [done|].
  by apply (mapping_of_references_in_two_parts catalog policy_twice
              policy_A policy_A).
Defined.

(** ** The details and the summary of a report *)

Section report_details.

Context (self : ComplianceMapper).

Lemma report_policy_details (st : ReportState) (policy : Policy) :
  st_details (report_policy self st policy)
    = <[policy_name policy := detail_of self policy]> (st_details st).
Proof.
  unfold report_policy.
  by destruct (map_fold_update_summary
    {| st_total_policies := st_total_policies st;
       st_standards_covered := st_standards_covered st;
       st_controls_covered := st_controls_covered st;
       st_details :=
         <[policy_name policy :=
             {| detail_policy_name := policy_name policy;
                detail_standards := map_policy_to_standards self policy |}]>
           (st_details st) |}
    (map_policy_to_standards self policy)) as (_ & -> & _ & _).
Qed.

Lemma report_policy_total (st : ReportState) (policy : Policy) :
  st_total_policies (report_policy self st policy) = st_total_policies st.
Proof.
  unfold report_policy.
  by destruct (map_fold_update_summary
    {| st_total_policies := st_total_policies st;
       st_standards_covered := st_standards_covered st;
       st_controls_covered := st_controls_covered st;
       st_details :=
         <[policy_name policy :=
             {| detail_policy_name := policy_name policy;
                detail_standards := map_policy_to_standards self policy |}]>
           (st_details st) |}
    (map_policy_to_standards self policy)) as (-> & _ & _ & _).
Qed.

Lemma foldl_report_policy_total (policies : list Policy) (st : ReportState) :
  st_total_policies (foldl (report_policy self) st policies)
    = st_total_policies st.
Proof.
  revert st. induction policies as [|p ps IH]; intros st; [done|].
  cbn. by rewrite IH, report_policy_total.
Qed.

Lemma foldl_report_policy_details_dom (policies : list Policy) (st : ReportState) :
  dom (st_details (foldl (report_policy self) st policies))
    = dom (st_details st) ∪ list_to_set (policy_name <$> policies).
Proof.
  revert st. induction policies as [|p ps IH]; intros st; cbn.
  - by rewrite (right_id_L ∅ (∪)).
  - rewrite IH, report_policy_details, dom_insert_L.
    by rewrite (comm_L (∪) {[policy_name p]}), <- (assoc_L (∪)).
Qed.

Lemma foldl_report_policy_details_snoc (policies : list Policy) (policy : Policy)
    (st : ReportState) :
  st_details (foldl (report_policy self) st (policies ++ [policy]))
    = <[policy_name policy := detail_of self policy]>
        (st_details (foldl (report_policy self) st policies)).
Proof. by rewrite foldl_app; cbn; rewrite report_policy_details. Qed.

Lemma foldl_report_policy_details_last (policies : list Policy) (st : ReportState)
    (n : string) :
  st_details (foldl (report_policy self) st policies) !! n =
    match last (filter (λ p, policy_name p = n) policies) with
    | Some p => Some (detail_of self p)
    | None => st_details st !! n
    end.
Proof.
  induction policies as [|p ps IH] using rev_ind; [done|].
  rewrite foldl_report_policy_details_snoc, filter_app, filter_cons, filter_nil.
  destruct (decide (policy_name p = n)) as [<-|Hne].
  - by rewrite lookup_insert_eq, last_snoc.
  - by rewrite lookup_insert_ne, app_nil_r.
Qed.

Lemma report_standards_covered (policies : list Policy) (s : string) :
  s ∈ standards_covered (summary (generate_compliance_report self policies)) ↔
  ∃ p, p ∈ policies ∧ is_Some (map_policy_to_standards self p !! s).
Proof.
  unfold generate_compliance_report; cbn.
  rewrite elem_of_elements, foldl_report_policy_standards; cbn.
  rewrite (left_id_L ∅ (∪)), elem_of_union_list. split.
  - intros (X & HX & Hs). apply list_elem_of_fmap in HX as (p & -> & Hp).
    exists p. split; [done|]. by apply elem_of_dom.
  - intros (p & Hp & Hs). exists (dom (map_policy_to_standards self p)).
    split; [apply list_elem_of_fmap; by exists p|]. by apply elem_of_dom.
Qed.

Lemma report_controls_nodup (policies : list Policy) (s : string) :
  NoDup (default [] (controls_covered
                       (summary (generate_compliance_report self policies)) !! s)).
Proof.
  unfold generate_compliance_report; cbn. rewrite lookup_fmap.
  destruct (st_controls_covered _ !! s); cbn;
    [apply NoDup_elements|apply NoDup_nil_2].
Qed.

Lemma map_policy_control_reference (policy : Policy) (s c : string) :
  c ∈ default [] (map_policy_to_standards self policy !! s) ↔
  is_Some (standards self !! s) ∧
  ∃ ref, ref ∈ compliance_refs policy ∧ parse_reference ref = (s, Some c).
Proof.
  rewrite map_policy_lookup. case_decide as Hd; cbn.
  - rewrite controls_for_elem. destruct Hd as [Hs _]. split; [by eauto|].
    by intros [_ ?].
  - split; [by intros ?%elem_of_nil|]. intros (Hs & ref & Href & Hp).
    destruct Hd. split; [done|]. apply Exists_exists. exists ref.
    by rewrite Hp.
Qed.

Lemma report_total_policies (policies : list Policy) :
  total_policies (summary (generate_compliance_report self policies))
    = length policies.
Proof.
  unfold generate_compliance_report; cbn. by rewrite foldl_report_policy_total.
Qed.

End report_details.

(** X9. The report counts the policies given, while its details have one
    entry per policy name: never more entries than policies, and as many
    when the names are distinct. *)
Theorem report_counts (self : ComplianceMapper) (policies : list Policy) :
  total_policies (summary (generate_compliance_report self policies))
    = length policies ∧
  dom (details (generate_compliance_report self policies))
    = list_to_set (policy_name <$> policies) ∧
  size (details (generate_compliance_report self policies)) ≤ length policies ∧
  (NoDup (policy_name <$> policies) →
   size (details (generate_compliance_report self policies)) = length policies).
Proof.
  assert (dom (details (generate_compliance_report self policies))
            = list_to_set (policy_name <$> policies)) as Hdom.
  { unfold generate_compliance_report; cbn.
    rewrite foldl_report_policy_details_dom; cbn.
    by rewrite dom_empty_L, (left_id_L ∅ (∪)). }
  split; [|split; [done|]].
  - apply report_total_policies.
  - rewrite <- size_dom, Hdom. split.
    + etrans; [apply size_list_to_set_le|]. by rewrite length_fmap.
    + intros Hnodup. by rewrite size_list_to_set, length_fmap.
Qed.

(** Two policies without a name are both filed under "unknown": two
    policies counted, one entry. *)
Example report_of_two_unnamed :
  total_policies (summary (generate_compliance_report catalog
                             [policy_unnamed; policy_bare])) = 2 ∧
  size (details (generate_compliance_report catalog
                   [policy_unnamed; policy_bare])) = 1 ∧
  details (generate_compliance_report catalog [policy_unnamed; policy_bare])
    !! "unknown" = Some (detail_of catalog policy_bare).
Proof. repeat split; by vm_compute. Qed.

(** X10. The details of a report hold, under a name, the name and the
    mapping of the last policy of the batch with that name, and nothing
    under a name that no policy has; a policy without a name counts as
    named "unknown". *)
Theorem details_keep_last_policy (self : ComplianceMapper)
    (policies : list Policy) (n : string) :
  details (generate_compliance_report self policies) !! n
    = detail_of self <$> last (filter (λ p, policy_name p = n) policies).
Proof.
  unfold generate_compliance_report; cbn.
  rewrite foldl_report_policy_details_last; cbn.
  by destruct (last _).
Qed.

(** X11. In the summary of a report the standards that have an entry of
    covered controls are exactly the standards covered, and all of them
    are standards of the catalog. *)
Theorem summary_standards_agree (self : ComplianceMapper)
    (policies : list Policy) :
  dom (controls_covered (summary (generate_compliance_report self policies)))
    = list_to_set (standards_covered
                     (summary (generate_compliance_report self policies))) ∧
  dom (controls_covered (summary (generate_compliance_report self policies)))
    ⊆ dom (standards self).
Proof.
  assert (∀ s, s ∈ dom (controls_covered
                          (summary (generate_compliance_report self policies))) ↔
               ∃ p, p ∈ policies ∧ is_Some (map_policy_to_standards self p !! s))
    as Hdom.
  { intros s. by rewrite elem_of_dom, report_controls_covered_key. }
  split.
  - apply set_eq. intros s.
    by rewrite Hdom, elem_of_list_to_set, report_standards_covered.
  - intros s. rewrite Hdom, elem_of_dom. intros (p & _ & Hs).
    rewrite map_policy_lookup in Hs. case_decide as Hd; [|by destruct Hs].
    by destruct Hd.
Qed.

(** X12. A control id is reported as covered for a standard exactly when
    the standard is in the catalog and some policy of the batch holds a
    reference that parses to this standard and this control id. *)
Theorem covered_control_has_reference (self : ComplianceMapper)
    (policies : list Policy) (s c : string) :
  c ∈ default [] (controls_covered
                    (summary (generate_compliance_report self policies)) !! s) ↔
  is_Some (standards self !! s) ∧
  ∃ p ref, p ∈ policies ∧ ref ∈ compliance_refs p ∧
           parse_reference ref = (s, Some c).
Proof.
  rewrite report_controls_covered. split.
  - intros (p & Hp & Hc).
    apply map_policy_control_reference in Hc as (Hs & ref & Href & Hparse).
    split; [done|]. by exists p, ref.
  - intros (Hs & p & ref & Hp & Href & Hparse). exists p. split; [done|].
    apply map_policy_control_reference. split; [done|]. by exists ref.
Qed.

(** X13. The summary of a report does not depend on the order of the
    policies: for the same policies in another order it counts as many,
    and it lists the same standards and, for each standard, the same
    controls, up to the order of the lists. *)
Theorem summary_order_independent (self : ComplianceMapper)
    (policies1 policies2 : list Policy) :
  policies1 ≡ₚ policies2 →
  total_policies (summary (generate_compliance_report self policies1))
    = total_policies (summary (generate_compliance_report self policies2)) ∧
  standards_covered (summary (generate_compliance_report self policies1))
    ≡ₚ standards_covered (summary (generate_compliance_report self policies2)) ∧
  ∀ s,
    (is_Some (controls_covered
                (summary (generate_compliance_report self policies1)) !! s) ↔
     is_Some (controls_covered
                (summary (generate_compliance_report self policies2)) !! s)) ∧
    default [] (controls_covered
                  (summary (generate_compliance_report self policies1)) !! s)
      ≡ₚ default [] (controls_covered
                       (summary (generate_compliance_report self policies2)) !! s).
Proof.
  intros Hperm.
  assert (∀ p, p ∈ policies1 ↔ p ∈ policies2) as Hin
    by (intros p; by rewrite Hperm).
  split; [|split].
  - by rewrite !report_total_policies, Hperm.
  - apply NoDup_Permutation.
    + unfold generate_compliance_report; cbn. apply NoDup_elements.
    + unfold generate_compliance_report; cbn. apply NoDup_elements.
    + intros s. rewrite !report_standards_covered.
      split; intros (p & Hp & Hs); exists p; (split; [by apply Hin|done]).
  - intros s. split.
    + rewrite !report_controls_covered_key.
      split; intros (p & Hp & Hs); exists p; (split; [by apply Hin|done]).
    + apply NoDup_Permutation; [apply report_controls_nodup..|].
      intros c. rewrite !report_controls_covered.
      split; intros (p & Hp & Hs); exists p; (split; [by apply Hin|done]).
Qed.

(** ** The coverage of a gap result *)

Section coverage.

Lemma percentage_100 (a b : nat) :
  0 < b → a ≤ b → (Z.of_nat b <= 2 ^ 53)%Z →
  (percentage a b == 100)%Q ↔ a = b.
Proof.
  intros Hb Hab Hsmall. split.
  - intros Hfull. destruct (decide (a = b)) as [|Hne]; [done|].
    assert (percentage a b < 100)%Q as Hbelow
      by (apply percentage_below; [lia|done]).
    rewrite Hfull in Hbelow. by apply Qlt_irrefl in Hbelow.
  - intros ->. by apply percentage_full.
Qed.

Lemma percentage_0 (a b : nat) :
  0 < b → (Z.of_nat b <= 2 ^ 53)%Z → (percentage a b == 0)%Q ↔ a = 0.
Proof.
  intros Hb Hsmall. split.
  - intros Hnone. destruct (decide (a = 0)) as [|Hne]; [done|].
    assert (0 < percentage a b)%Q as Hsome
      by (apply percentage_some; [lia|done|done]).
    rewrite Hnone in Hsome. by apply Qlt_irrefl in Hsome.
  - intros ->. apply percentage_none.
Qed.

Lemma size_list_to_set_NoDup (l : list string) :
  size (list_to_set l : gset string) = length l ↔ NoDup l.
Proof.
  split; [|apply size_list_to_set].
  induction l as [|x l IH]; cbn; [intros _; apply NoDup_nil_2|].
  rewrite size_union_alt, size_singleton. intros Hsize.
  pose proof (size_list_to_set_le l) as Hle.
  pose proof (subseteq_size (list_to_set l ∖ {[x]}) (list_to_set l : gset string)
                (subseteq_difference_l _ _ _ (reflexivity _))) as Hsub.
  apply NoDup_cons. split; [|apply IH; lia].
  intros Hx.
  assert (size (list_to_set l ∖ {[x]} : gset string) < size (list_to_set l : gset string));
    [|lia].
  apply subset_size. split; [apply subseteq_difference_l; reflexivity|].
  intros Hsubset.
  assert (x ∈ (list_to_set l : gset string)) as Hx'
    by (by apply elem_of_list_to_set).
  specialize (Hsubset x Hx'). apply elem_of_difference in Hsubset as [_ Hne].
  apply Hne. by apply elem_of_singleton.
Qed.

End coverage.

Section gap_results.

Context (self : ComplianceMapper).

Lemma check_compliance_gap_inr (s : string) (required : list string)
    (policies : list Policy) (r : GapResult) :
  check_compliance_gap self s required policies = inr r →
  is_Some (standards self !! s) ∧ required ≠ [] ∧
  implemented_controls r
    = elements (find_implemented self s policies ∩ list_to_set required) ∧
  missing_controls r
    = elements (list_to_set required ∖ find_implemented self s policies) ∧
  coverage_percentage r
    = percentage (size (find_implemented self s policies ∩ list_to_set required))
                 (length required).
Proof.
  unfold check_compliance_gap.
  destruct (standards self !! s) as [std|] eqn:Hstd; [|done].
  case_decide as Hlen; [done|]. intros [= <-]. cbn.
  split; [by eauto|]. split; [|done]. by intros ->.
Qed.

Lemma find_implemented_reference (s c : string) (policies : list Policy) :
  c ∈ find_implemented self s policies ↔
  is_Some (standards self !! s) ∧
  ∃ p ref, p ∈ policies ∧ ref ∈ compliance_refs p ∧
           parse_reference ref = (s, Some c).
Proof.
  rewrite elem_of_find_implemented. split.
  - intros (p & Hp & Hc).
    apply map_policy_control_reference in Hc as (Hs & ref & Href & Hparse).
    split; [done|]. by exists p, ref.
  - intros (Hs & p & ref & Hp & Href & Hparse). exists p. split; [done|].
    apply map_policy_control_reference. split; [done|]. by exists ref.
Qed.

Lemma find_implemented_subseteq (s : string) (policies1 policies2 : list Policy) :
  policies1 ⊆ policies2 →
  find_implemented self s policies1 ⊆ find_implemented self s policies2.
Proof.
  intros Hsub c. rewrite !elem_of_find_implemented.
  intros (p & Hp & Hc). exists p. split; [by apply Hsub|done].
Qed.


End gap_results.

(** X14. In a result of the gap check a required control is implemented
    exactly when some policy of the batch holds a reference that parses to
    the standard and to this control id, and it is missing exactly when no
    policy holds one; controls that are not required are in neither
    list. *)
Theorem gap_controls_by_reference (self : ComplianceMapper) (s : string)
    (required : list string) (policies : list Policy) (r : GapResult) :
  check_compliance_gap self s required policies = inr r →
  (∀ c, c ∈ implemented_controls r ↔
        c ∈ required ∧
        ∃ p ref, p ∈ policies ∧ ref ∈ compliance_refs p ∧
                 parse_reference ref = (s, Some c)) ∧
  (∀ c, c ∈ missing_controls r ↔
        c ∈ required ∧
        ¬ ∃ p ref, p ∈ policies ∧ ref ∈ compliance_refs p ∧
                   parse_reference ref = (s, Some c)).
Proof.
  intros (Hs & _ & -> & -> & _)%check_compliance_gap_inr.
  split; intros c.
  - rewrite elem_of_elements, elem_of_intersection, elem_of_list_to_set,
      find_implemented_reference. tauto.
  - rewrite elem_of_elements, elem_of_difference, elem_of_list_to_set,
      find_implemented_reference. tauto.
Qed.

(** X15. For a required list of at most 2^53 controls, the coverage of a
    result is 100 exactly when no control is missing and the required list
    names no control twice. (Above 2^53 the quotient of a length by a
    greater one can round to 1.) *)
Theorem full_coverage_iff (self : ComplianceMapper) (s : string)
    (required : list string) (policies : list Policy) (r : GapResult) :
  check_compliance_gap self s required policies = inr r →
  (Z.of_nat (length required) <= 2 ^ 53)%Z →
  (coverage_percentage r == 100)%Q ↔ missing_controls r = [] ∧ NoDup required.
Proof.
  intros (_ & Hreq & _ & -> & ->)%check_compliance_gap_inr Hsmall.
  assert (0 < length required) as Hpos by (destruct required; [done|cbn; lia]).
  pose proof (size_list_to_set_le required) as Hle.
  pose proof (subseteq_size
                (find_implemented self s policies ∩ list_to_set required)
                (list_to_set required : gset string)
                (intersection_subseteq_r _ _)) as Hsub.
  rewrite percentage_100 by (done || lia).
  rewrite <- size_list_to_set_NoDup, elements_empty_iff.
  split.
  - intros Hsize. split; [|lia].
    apply set_equiv. intros c. rewrite elem_of_difference.
    split; [|by intros ?%elem_of_empty]. intros [Hc Hnot]. exfalso.
    assert (find_implemented self s policies ∩ list_to_set required
              ⊂ (list_to_set required : gset string)) as Hstrict.
    { split; [apply intersection_subseteq_r|]. intros Hback.
      apply Hnot. specialize (Hback c Hc).
      by apply elem_of_intersection in Hback as [? _]. }
    apply subset_size in Hstrict. lia.
  - intros [Hmissing Hnodup]. rewrite <- Hnodup. f_equal.
    apply set_eq. intros c. rewrite elem_of_intersection.
    split; [by intros [_ ?]|]. intros Hc. split; [|done].
    destruct (decide (c ∈ find_implemented self s policies)) as [|Hnot]; [done|].
    exfalso. apply (not_elem_of_empty (C := gset string) c).
    apply Hmissing. by apply elem_of_difference.
Qed.

(** X16. For a required list of at most 2^53 controls, the coverage of a
    result is 0 exactly when no required control is implemented. *)
Theorem no_coverage_iff (self : ComplianceMapper) (s : string)
    (required : list string) (policies : list Policy) (r : GapResult) :
  check_compliance_gap self s required policies = inr r →
  (Z.of_nat (length required) <= 2 ^ 53)%Z →
  (coverage_percentage r == 0)%Q ↔ implemented_controls r = [].
Proof.
  intros (_ & Hreq & -> & _ & ->)%check_compliance_gap_inr Hsmall.
  assert (0 < length required) as Hpos by (destruct required; [done|cbn; lia]).
  by rewrite percentage_0, elements_empty_iff, size_empty_iff.
Qed.

(** X17. The implemented and the missing controls of a result are
    together as many as the distinct required controls, which is at most
    the length of the required list. *)
Theorem gap_counts (self : ComplianceMapper) (s : string)
    (required : list string) (policies : list Policy) (r : GapResult) :
  check_compliance_gap self s required policies = inr r →
  length (implemented_controls r) + length (missing_controls r)
    = size (list_to_set required : gset string) ∧
  size (list_to_set required : gset string) ≤ length required.
Proof.
  intros (_ & _ & -> & -> & _)%check_compliance_gap_inr.
  split; [|apply size_list_to_set_le].
  change (size (find_implemented self s policies ∩ list_to_set required)
          + size (list_to_set required ∖ find_implemented self s policies)
          = size (list_to_set required : gset string)).
  rewrite <- size_union.
  - f_equal. apply set_eq. intros c.
    rewrite elem_of_union, elem_of_intersection, elem_of_difference.
    destruct (decide (c ∈ find_implemented self s policies)); tauto.
  - intros c. rewrite elem_of_intersection, elem_of_difference. tauto.
Qed.

(** X18. More policies never lower a gap result: when a batch is
    contained in a second one, the check on the second one returns a
    result too, with every control implemented before still implemented,
    no control newly missing and a coverage at least as high. *)
Theorem gap_monotone (self : ComplianceMapper) (s : string)
    (required : list string) (policies1 policies2 : list Policy)
    (r1 : GapResult) :
  policies1 ⊆ policies2 →
  check_compliance_gap self s required policies1 = inr r1 →
  ∃ r2, check_compliance_gap self s required policies2 = inr r2 ∧
        implemented_controls r1 ⊆ implemented_controls r2 ∧
        missing_controls r2 ⊆ missing_controls r1 ∧
        (coverage_percentage r1 <= coverage_percentage r2)%Q.
Proof.
  intros Hsub (Hs & Hreq & -> & -> & ->)%check_compliance_gap_inr.
  rewrite check_compliance_gap_known by done. eexists. split; [done|]. cbn.
  pose proof (find_implemented_subseteq self s policies1 policies2 Hsub) as Hfind.
  split; [|split].
  - intros c. rewrite !elem_of_elements, !elem_of_intersection.
    intros [Hc ?]. split; [by apply Hfind|done].
  - intros c. rewrite !elem_of_elements, !elem_of_difference.
    intros [? Hc]. split; [done|]. intros Hin. apply Hc. by apply Hfind.
  - apply percentage_mono; [destruct required; [done|cbn; lia]|].
    apply subseteq_size. intros c. rewrite !elem_of_intersection.
    intros [Hc ?]. split; [by apply Hfind|done].
Qed.


(** X20. A gap result does not depend on the order of the policies nor on
    the order of the required controls: it has the same implemented and
    the same missing controls, up to the order of the lists, and the same
    coverage. *)
Theorem gap_order_independent (self : ComplianceMapper) (s : string)
    (required1 required2 : list string) (policies1 policies2 : list Policy)
    (r1 : GapResult) :
  policies1 ≡ₚ policies2 → required1 ≡ₚ required2 →
  check_compliance_gap self s required1 policies1 = inr r1 →
  ∃ r2, check_compliance_gap self s required2 policies2 = inr r2 ∧
        implemented_controls r1 ≡ₚ implemented_controls r2 ∧
        missing_controls r1 ≡ₚ missing_controls r2 ∧
        coverage_percentage r1 = coverage_percentage r2.
Proof.
  intros Hpol Hreq (Hs & Hne & -> & -> & ->)%check_compliance_gap_inr.
  assert (required2 ≠ []) as Hne2.
  { intros ->. by apply Permutation_nil_r in Hreq. }
  rewrite check_compliance_gap_known by done. eexists. split; [done|]. cbn.
  assert (find_implemented self s policies1 = find_implemented self s policies2)
    as ->.
  { apply set_eq. intros c. rewrite !elem_of_find_implemented.
    split; intros (p & Hp & Hc); exists p; (split; [|done]).
    - by rewrite <- Hpol.
    - by rewrite Hpol. }
  assert (list_to_set required1 =@{gset string} list_to_set required2) as ->.
  { apply set_eq. intros c. by rewrite !elem_of_list_to_set, Hreq. }
  by rewrite (Permutation_length Hreq).
Qed.

(** ** The properties above, on the SOC-2 example *)

Lemma summary_order_independent_A_B :
  [policy_A; policy_B] ≡ₚ [policy_B; policy_A] ∧
  total_policies (summary (generate_compliance_report catalog [policy_A; policy_B]))
    = total_policies (summary (generate_compliance_report catalog [policy_B; policy_A])) ∧
  standards_covered (summary (generate_compliance_report catalog [policy_A; policy_B]))
    ≡ₚ standards_covered (summary (generate_compliance_report catalog [policy_B; policy_A])) ∧
  ∀ s,
    (is_Some (controls_covered
                (summary (generate_compliance_report catalog [policy_A; policy_B])) !! s) ↔
     is_Some (controls_covered
                (summary (generate_compliance_report catalog [policy_B; policy_A])) !! s)) ∧
    default [] (controls_covered
                  (summary (generate_compliance_report catalog [policy_A; policy_B])) !! s)
      ≡ₚ default [] (controls_covered
                       (summary (generate_compliance_report catalog [policy_B; policy_A])) !! s).
Proof.
  split; [apply Permutation_swap|].
  apply (summary_order_independent catalog [policy_A; policy_B] [policy_B; policy_A]).
  apply Permutation_swap.
Defined.

Lemma gap_controls_by_reference_soc2 :
  ∃ r,
    check_compliance_gap catalog "SOC-2" ["CC6.1"; "CC6.2"] [policy_A; policy_B]
      = inr r ∧
    (∀ c, c ∈ implemented_controls r ↔
          c ∈ ["CC6.1"; "CC6.2"] ∧
          ∃ p ref, p ∈ [policy_A; policy_B] ∧ ref ∈ compliance_refs p ∧
                   parse_reference ref = ("SOC-2", Some c)) ∧
    (∀ c, c ∈ missing_controls r ↔
          c ∈ ["CC6.1"; "CC6.2"] ∧
          ¬ ∃ p ref, p ∈ [policy_A; policy_B] ∧ ref ∈ compliance_refs p ∧
                     parse_reference ref = ("SOC-2", Some c)).
Proof.
  eexists. split; [by vm_compute|].
  apply (gap_controls_by_reference catalog "SOC-2" ["CC6.1"; "CC6.2"]
           [policy_A; policy_B]).
  by vm_compute.
Defined.

Lemma full_coverage_iff_soc2 :
  (Z.of_nat (length ["CC6.1"]) <= 2 ^ 53)%Z ∧
  ∃ r,
    check_compliance_gap catalog "SOC-2" ["CC6.1"] [policy_A; policy_B] = inr r ∧
    (coverage_percentage r == 100)%Q ∧
    ((coverage_percentage r == 100)%Q ↔
     missing_controls r = [] ∧ NoDup ["CC6.1"]).
Proof.
  assert (Z.of_nat (length ["CC6.1"]) <= 2 ^ 53)%Z as Hsmall by (cbn; lia).
  split; [done|]. eexists. split; [by vm_compute|]. split; [by vm_compute|].
  apply (full_coverage_iff catalog "SOC-2" ["CC6.1"] [policy_A; policy_B]);
    [by vm_compute|done].
Defined.

Lemma no_coverage_iff_soc2 :
  (Z.of_nat (length ["CC6.2"]) <= 2 ^ 53)%Z ∧
  ∃ r,
    check_compliance_gap catalog "SOC-2" ["CC6.2"] [policy_A; policy_B] = inr r ∧
    (coverage_percentage r == 0)%Q ∧
    ((coverage_percentage r == 0)%Q ↔ implemented_controls r = []).
Proof.
  assert (Z.of_nat (length ["CC6.2"]) <= 2 ^ 53)%Z as Hsmall by (cbn; lia).
  split; [done|]. eexists. split; [by vm_compute|]. split; [by vm_compute|].
  apply (no_coverage_iff catalog "SOC-2" ["CC6.2"] [policy_A; policy_B]);
    [by vm_compute|done].
Defined.

Lemma gap_counts_soc2 :
  ∃ r,
    check_compliance_gap catalog "SOC-2" ["CC6.1"; "CC6.2"; "CC6.1"]
      [policy_A; policy_B] = inr r ∧
    length (implemented_controls r) + length (missing_controls r)
      = size (list_to_set ["CC6.1"; "CC6.2"; "CC6.1"] : gset string) ∧
    size (list_to_set ["CC6.1"; "CC6.2"; "CC6.1"] : gset string)
      ≤ length ["CC6.1"; "CC6.2"; "CC6.1"].
Proof.
  eexists. split; [by vm_compute|].
  apply (gap_counts catalog "SOC-2" ["CC6.1"; "CC6.2"; "CC6.1"]
           [policy_A; policy_B]).
  by vm_compute.
Defined.

Lemma gap_monotone_soc2 :
  [policy_B] ⊆ [policy_B; policy_A] ∧
  ∃ r1,
    check_compliance_gap catalog "SOC-2" ["CC6.1"; "CC6.2"] [policy_B] = inr r1 ∧
    ∃ r2,
      check_compliance_gap catalog "SOC-2" ["CC6.1"; "CC6.2"]
        [policy_B; policy_A] = inr r2 ∧
      implemented_controls r1 ⊆ implemented_controls r2 ∧
      missing_controls r2 ⊆ missing_controls r1 ∧
      (coverage_percentage r1 <= coverage_percentage r2)%Q.
Proof.
  assert ([policy_B] ⊆ [policy_B; policy_A]) as Hsub.
  { intros p Hp. apply elem_of_cons in Hp as [->|Hp]; [by left|].
    by apply elem_of_nil in Hp. }
  split; [done|]. eexists. split; [by vm_compute|].
  apply (gap_monotone catalog "SOC-2" ["CC6.1"; "CC6.2"] [policy_B]
           [policy_B; policy_A]); [done|by vm_compute].
Defined.


Lemma gap_order_independent_soc2 :
  [policy_A; policy_B] ≡ₚ [policy_B; policy_A] ∧
  ["CC6.1"; "CC6.2"] ≡ₚ ["CC6.2"; "CC6.1"] ∧
  ∃ r1,
    check_compliance_gap catalog "SOC-2" ["CC6.1"; "CC6.2"] [policy_A; policy_B]
      = inr r1 ∧
    ∃ r2,
      check_compliance_gap catalog "SOC-2" ["CC6.2"; "CC6.1"]
        [policy_B; policy_A] = inr r2 ∧
      implemented_controls r1 ≡ₚ implemented_controls r2 ∧
      missing_controls r1 ≡ₚ missing_controls r2 ∧
      coverage_percentage r1 = coverage_percentage r2.
Proof.
  split; [apply Permutation_swap|]. split; [apply Permutation_swap|].
  eexists. split; [by vm_compute|].
  apply (gap_order_independent catalog "SOC-2" ["CC6.1"; "CC6.2"]
           ["CC6.2"; "CC6.1"] [policy_A; policy_B] [policy_B; policy_A]);
    [apply Permutation_swap|apply Permutation_swap|by vm_compute].
Defined.

(** ** Loading the catalog *)

Section loading.

Lemma loaded_standards_Forall2 (documents : list StandardData)
    (loaded : list ComplianceStandard) :
  loaded_standards documents = Some loaded ↔
  Forall2 (λ data standard, load_standard data = inr standard) documents loaded.
Proof.
  revert loaded. induction documents as [|d ds IH]; intros loaded; cbn.
  - split; [intros [= <-]; constructor|]. by intros ->%Forall2_nil_inv_l.
  - destruct (load_standard d) as [e|std] eqn:Hd.
    + split; [done|]. intros (std & l & Hstd & _ & _)%Forall2_cons_inv_l.
      by rewrite Hd in Hstd.
    + destruct (loaded_standards ds) as [l|].
      * split.
        -- intros [= <-]. constructor; [done|]. by apply IH.
        -- intros (std' & l' & Hstd & Hl & ->)%Forall2_cons_inv_l.
           rewrite Hd in Hstd. injection Hstd as <-.
           apply IH in Hl. by injection Hl as <-.
      * split; [done|]. intros (std' & l' & _ & Hl & _)%Forall2_cons_inv_l.
        by apply IH in Hl.
Qed.

Lemma load_standards_from_inr (documents : list StandardData)
    (standards0 loaded : gmap string ComplianceStandard) :
  load_standards_from standards0 documents = inr loaded ↔
  ∃ l, loaded_standards documents = Some l ∧
       loaded = foldl (λ m standard, <[standard_id_of standard := standard]> m)
                  standards0 l.
Proof.
  revert standards0. induction documents as [|d ds IH]; intros standards0; cbn.
  - split; [intros [= <-]; by exists []|]. by intros (l & [= <-] & ->).
  - destruct (load_standard d) as [e|std] eqn:Hd; cbn.
    + split; [done|]. by intros (l & ? & _).
    + rewrite IH. destruct (loaded_standards ds) as [l|].
      * split.
        -- intros (l' & [= <-] & ->). by exists (std :: l).
        -- intros (l' & [= <-] & ->). by exists l.
      * split; by intros (l' & ? & _).
Qed.

Lemma load_standards_from_inl (documents : list StandardData)
    (standards0 : gmap string ComplianceStandard) (e : load_exception) :
  load_standards_from standards0 documents = inl e ↔
  ∃ before data after,
    documents = before ++ data :: after ∧
    is_Some (loaded_standards before) ∧ load_standard data = inl e.
Proof.
  revert standards0. induction documents as [|d ds IH]; intros standards0; cbn.
  - split; [done|]. intros (before & data & after & Hnil & _).
    by destruct before.
  - destruct (load_standard d) as [e'|std] eqn:Hd; cbn.
    + split.
      * intros [= <-]. exists [], d, ds. split; [done|]. split; [by eexists|done].
      * intros (before & data & after & Hsplit & Hbefore & Hdata).
        destruct before as [|d' before]; cbn in Hsplit.
        -- injection Hsplit as <- <-. rewrite Hd in Hdata.
           by injection Hdata as ->.
        -- injection Hsplit as <- ->. cbn in Hbefore. rewrite Hd in Hbefore.
           by destruct Hbefore.
    + rewrite IH. split.
      * intros (before & data & after & -> & Hbefore & Hdata).
        exists (d :: before), data, after. split; [done|]. split; [|done].
        cbn. rewrite Hd. by destruct Hbefore as [l ->].
      * intros (before & data & after & Hsplit & Hbefore & Hdata).
        destruct before as [|d' before]; cbn in Hsplit.
        -- injection Hsplit as <- <-. by rewrite Hd in Hdata.
        -- injection Hsplit as <- ->. exists before, data, after.
           split; [done|]. split; [|done]. cbn in Hbefore.
           rewrite Hd in Hbefore. by destruct (loaded_standards before).
Qed.

Lemma foldl_insert_standard_lookup (l : list ComplianceStandard)
    (standards0 : gmap string ComplianceStandard) (k : string) :
  foldl (λ m standard, <[standard_id_of standard := standard]> m) standards0 l !! k =
    match last (filter (λ standard, standard_id_of standard = k) l) with
    | Some standard => Some standard
    | None => standards0 !! k
    end.
Proof.
  induction l as [|std l IH] using rev_ind; [done|].
  rewrite foldl_app, filter_app, filter_cons, filter_nil. cbn.
  destruct (decide (standard_id_of std = k)) as [<-|Hne].
  - by rewrite lookup_insert_eq, last_snoc.
  - by rewrite lookup_insert_ne, app_nil_r.
Qed.

Lemma load_standards_lookup (documents : list StandardData)
    (loaded : gmap string ComplianceStandard) :
  _load_standards documents = inr loaded →
  ∃ l, loaded_standards documents = Some l ∧
       ∀ k, loaded !! k
              = last (filter (λ standard, standard_id_of standard = k) l).
Proof.
  intros (l & Hl & ->)%load_standards_from_inr. exists l. split; [done|].
  intros k. rewrite foldl_insert_standard_lookup, lookup_empty.
  by destruct (last _).
Qed.

Lemma load_standards_key (documents : list StandardData)
    (loaded : gmap string ComplianceStandard) (k : string)
    (standard : ComplianceStandard) :
  _load_standards documents = inr loaded → loaded !! k = Some standard →
  standard_id_of standard = k ∧
  ∃ data, data ∈ documents ∧ load_standard data = inr standard.
Proof.
  intros (l & Hl & Hlookup)%load_standards_lookup Hk.
  rewrite Hlookup in Hk. apply last_Some_elem_of in Hk.
  apply list_elem_of_filter in Hk as [Hid Hin]. split; [done|].
  apply loaded_standards_Forall2 in Hl.
  apply list_elem_of_lookup in Hin as [i Hi].
  destruct (Forall2_lookup_r _ _ _ _ _ Hl Hi) as (data & Hdata & Hload).
  exists data. split; [|done]. by apply list_elem_of_lookup_2 in Hdata.
Qed.

Lemma loaded_standards_is_Some (documents : list StandardData) :
  is_Some (loaded_standards documents) ↔
  Forall (λ data, ∃ standard, load_standard data = inr standard) documents.
Proof.
  induction documents as [|d ds IH]; cbn.
  - split; [constructor|by eexists].
  - rewrite Forall_cons, <- IH. destruct (load_standard d) as [e|std].
    + split; [by intros [? ?]|]. by intros [[? ?] _].
    + destruct (loaded_standards ds) as [l|].
      * split; [|by eexists]. intros _. split; by eexists.
      * split; [by intros [? ?]|]. by intros [_ [? ?]].
Qed.

Lemma load_standards_is_Some (documents : list StandardData)
    (loaded : gmap string ComplianceStandard) (k : string) :
  _load_standards documents = inr loaded →
  is_Some (loaded !! k) ↔
  ∃ data standard, data ∈ documents ∧ load_standard data = inr standard ∧
                   standard_id_of standard = k.
Proof.
  intros Hload. split.
  - intros [std Hstd].
    destruct (load_standards_key documents loaded k std Hload Hstd)
      as (Hid & data & Hdata & Hstd').
    by exists data, std.
  - intros (data & std & Hdata & Hstd & Hid).
    apply load_standards_lookup in Hload as (l & Hl & ->).
    apply last_is_Some. intros Hnil.
    apply loaded_standards_Forall2 in Hl.
    apply list_elem_of_lookup in Hdata as [i Hi].
    destruct (Forall2_lookup_l _ _ _ _ _ Hl Hi) as (std' & Hstd' & Hload').
    rewrite Hstd in Hload'. injection Hload' as <-.
    apply list_elem_of_lookup_2 in Hstd'.
    assert (std ∈ filter (λ standard, standard_id_of standard = k) l) as Hin
      by (by apply list_elem_of_filter).
    rewrite Hnil in Hin. by apply elem_of_nil in Hin.
Qed.

Lemma load_control_inr (cd : ControlData) (c : ComplianceControl) :
  load_control cd = inr c ↔
  data_id cd = Some (control_id_of c) ∧
  data_title cd = Some (control_title c) ∧
  data_description cd = Some (control_description c) ∧
  control_severity c = default "medium" (data_severity cd) ∧
  control_checks c = default [] (data_checks cd).
Proof.
  unfold load_control.
  destruct (data_id cd) as [i|], (data_title cd) as [t|],
    (data_description cd) as [d|]; cbn;
    try (split; [done|by intros (? & ? & ? & _)]).
  split.
  - by intros [= <-].
  - destruct c as [i' t' d' sv ch]; cbn.
    by intros ([= ->] & [= ->] & [= ->] & -> & ->).
Qed.

Lemma load_controls_inr (cds : list ControlData) (cs : list ComplianceControl) :
  load_controls cds = inr cs ↔
  Forall2 (λ cd c, load_control cd = inr c) cds cs.
Proof.
  revert cs. induction cds as [|cd cds IH]; intros cs; cbn.
  - split; [intros [= <-]; constructor|]. by intros ->%Forall2_nil_inv_l.
  - destruct (load_control cd) as [e|c] eqn:Hc; cbn.
    + split; [done|]. intros (c & l & Hc' & _ & _)%Forall2_cons_inv_l.
      by rewrite Hc in Hc'.
    + destruct (load_controls cds) as [e|l]; cbn.
      * split; [done|]. intros (c' & l' & _ & Hl & _)%Forall2_cons_inv_l.
        by apply IH in Hl.
      * split.
        -- intros [= <-]. constructor; [done|]. by apply IH.
        -- intros (c' & l' & Hc' & Hl & ->)%Forall2_cons_inv_l.
           rewrite Hc in Hc'. injection Hc' as <-.
           apply IH in Hl. by injection Hl as <-.
Qed.

End loading.

(** X21. In a loaded catalog every key is the id of the standard stored
    under it, and every standard stored is what one of the documents
    defines. *)
Theorem loaded_catalog_keyed_by_id (documents : list StandardData)
    (loaded : gmap string ComplianceStandard) (k : string)
    (standard : ComplianceStandard) :
  _load_standards documents = inr loaded → loaded !! k = Some standard →
  standard_id_of standard = k ∧
  ∃ data, data ∈ documents ∧ load_standard data = inr standard.
Proof. apply load_standards_key. Qed.

Lemma loaded_catalog_keyed_by_id_soc2 :
  ∃ loaded standard,
    _load_standards soc2_documents = inr loaded ∧
    loaded !! "SOC-2" = Some standard ∧
    standard_id_of standard = "SOC-2" ∧
    ∃ data, data ∈ soc2_documents ∧ load_standard data = inr standard.
Proof.
  do 2 eexists. split; [by vm_compute|]. split; [by vm_compute|].
  eapply (loaded_catalog_keyed_by_id soc2_documents); by vm_compute.
Defined.

(** X22. When several documents define the same standard id, the loaded
    catalog keeps the last of them: under an id it holds the last
    standard with that id among those the documents define, in their
    order. *)
Theorem loaded_catalog_keeps_last_document (documents : list StandardData)
    (loaded : gmap string ComplianceStandard) :
  _load_standards documents = inr loaded →
  ∃ l, Forall2 (λ data standard, load_standard data = inr standard) documents l ∧
       ∀ k, loaded !! k
              = last (filter (λ standard, standard_id_of standard = k) l).
Proof.
  intros (l & Hl & Hlookup)%load_standards_lookup. exists l.
  split; [by apply loaded_standards_Forall2|done].
Qed.

Lemma loaded_catalog_keeps_last_document_soc2 :
  ∃ loaded,
    _load_standards soc2_documents = inr loaded ∧
    (standard_version <$> loaded !! "SOC-2") = Some "2022" ∧
    ∃ l, Forall2 (λ data standard, load_standard data = inr standard)
           soc2_documents l ∧
         ∀ k, loaded !! k
                = last (filter (λ standard, standard_id_of standard = k) l).
Proof.
  eexists. split; [by vm_compute|]. split; [by vm_compute|].
  apply (loaded_catalog_keeps_last_document soc2_documents). by vm_compute.
Defined.

(** X23. Loading fails exactly when some document fails to load, with the
    error of the first such document; no catalog is returned then,
    whatever the documents before and after it hold. *)
Theorem load_fails_at_first_bad_document (documents : list StandardData)
    (e : load_exception) :
  _load_standards documents = inl e ↔
  ∃ before data after,
    documents = before ++ data :: after ∧
    Forall (λ data, ∃ standard, load_standard data = inr standard) before ∧
    load_standard data = inl e.
Proof.
  unfold _load_standards. rewrite load_standards_from_inl.
  split; intros (before & data & after & Hsplit & Hbefore & Hdata);
    exists before, data, after; (split; [done|]; split; [|done]);
    by apply loaded_standards_is_Some.
Qed.

(** A control without id stops the load before the standard's own keys
    are read, and the documents loaded before are lost. *)
Example load_of_broken_document :
  load_standard broken_data = inl (KeyError "id") ∧
  _load_standards (soc2_documents ++ [broken_data]) = inl (KeyError "id") ∧
  _load_standards
    [{| data_standard := None; data_controls := None |}]
    = inl (KeyError "standard").
Proof. repeat split; by vm_compute. Qed.

(** X24. A document loads exactly when it has the key "standard" with an
    id, a name and a version, and each of its controls has an id, a title
    and a description. The standard loaded has these values, and its
    controls are those of the document, as many and in their order, with
    "medium" for a missing severity and no checks for missing checks; a
    document without controls gives a standard without controls. *)
Theorem load_standard_succeeds_iff (data : StandardData)
    (standard : ComplianceStandard) :
  load_standard data = inr standard ↔
  ∃ info,
    data_standard data = Some info ∧
    info_id info = Some (standard_id_of standard) ∧
    info_name info = Some (standard_name standard) ∧
    info_version info = Some (standard_version standard) ∧
    Forall2 (λ cd c,
               data_id cd = Some (control_id_of c) ∧
               data_title cd = Some (control_title c) ∧
               data_description cd = Some (control_description c) ∧
               control_severity c = default "medium" (data_severity cd) ∧
               control_checks c = default [] (data_checks cd))
            (default [] (data_controls data)) (standard_controls standard).
Proof.
  assert (∀ cs,
    load_controls (default [] (data_controls data)) = inr cs ↔
    Forall2 (λ cd c,
               data_id cd = Some (control_id_of c) ∧
               data_title cd = Some (control_title c) ∧
               data_description cd = Some (control_description c) ∧
               control_severity c = default "medium" (data_severity cd) ∧
               control_checks c = default [] (data_checks cd))
            (default [] (data_controls data)) cs) as Hcontrols.
  { intros cs. rewrite load_controls_inr.
    split; intros Hall; (eapply Forall2_impl; [exact Hall|]);
      intros cd c; apply load_control_inr. }
  unfold load_standard. destruct (data_standard data) as [info|]; cbn;
    [|split; [done|by intros (? & ? & _)]].
  destruct (load_controls (default [] (data_controls data))) as [e|cs] eqn:Hcs;
    cbn.
  - split; [done|]. intros (info' & _ & _ & _ & _ & Hall).
    by apply Hcontrols in Hall.
  - destruct (info_id info) as [i|] eqn:Hi, (info_name info) as [n|] eqn:Hn,
      (info_version info) as [v|] eqn:Hv; cbn;
      try (split; [done|intros (? & [= <-] & ? & ? & ? & _); congruence]).
    split.
    + intros [= <-]. exists info. cbn.
      split; [done|]. split; [done|]. split; [done|]. split; [done|].
      by apply Hcontrols.
    + intros (info' & [= <-] & Hi' & Hn' & Hv' & Hall).
      destruct standard as [i' n' v' cs']; cbn in *.
      apply Hcontrols in Hall. by simplify_eq.
Qed.

(** X25. With a loaded catalog, a standard id is a key of the mapping of
    a policy exactly when one of the documents defines a standard with
    that id and a reference of the policy parses to it. *)
Theorem loaded_catalog_mapping (documents : list StandardData)
    (loaded : gmap string ComplianceStandard) (policy : Policy) (s : string) :
  _load_standards documents = inr loaded →
  is_Some (map_policy_to_standards {| standards := loaded |} policy !! s) ↔
  (∃ data standard, data ∈ documents ∧ load_standard data = inr standard ∧
                    standard_id_of standard = s) ∧
  ∃ ref, ref ∈ compliance_refs policy ∧ (parse_reference ref).1 = s.
Proof.
  intros Hload. rewrite map_policy_lookup, <- Exists_exists. cbn.
  rewrite <- (load_standards_is_Some documents loaded s Hload).
  case_decide as Hd; [by split; eauto|].
  split; [by intros [? ?]|]. intros Hk. by destruct Hd.
Qed.

Lemma loaded_catalog_mapping_soc2 :
  ∃ loaded,
    _load_standards soc2_documents = inr loaded ∧
    (is_Some (map_policy_to_standards {| standards := loaded |} policy_A
                !! "SOC-2") ↔
     (∃ data standard, data ∈ soc2_documents ∧
                       load_standard data = inr standard ∧
                       standard_id_of standard = "SOC-2") ∧
     ∃ ref, ref ∈ compliance_refs policy_A ∧ (parse_reference ref).1 = "SOC-2").
Proof.
  eexists. split; [by vm_compute|].
  apply (loaded_catalog_mapping soc2_documents). by vm_compute.
Defined.
